(** * go-museum: the recurring-task scheduler (package [scheduler])

  A shallow embedding of the scheduler of pghq/go-museum: the [Task] and
  [TaskSchedule] records with their methods, the scheduler ledger with
  [Add], the dispatch and retirement loops of [Scheduler.start] as a
  labelled transition system over a store of task objects ([Loops]), and the
  worker handler built by [Scheduler.Worker].

  Conventions.
  - A Go [int] is a [Z] in the signed 64-bit range; arithmetic on it
    wraps ([GoInt.wrap]).
  - A [time.Time] is a [Z]: nanoseconds counted from Go's zero instant,
    so the zero value of [time.Time] is [0].  A [time.Duration] is a [Z]
    count of nanoseconds.
  - A [chan struct{}] carries no data, so it is its capacity and the
    number of tokens buffered in it; the [nil] channel is [None].
  - A [*Task] is an address into a store of task objects (see
    [Loops]); the methods of [Task] themselves are state passing.
  - Every method that takes the schedule's [RWMutex] is one atomic
    step; the mutex itself is not represented. *)

From stdpp Require Import base numbers strings list gmap.

(** ** Machine integers, instants and durations *)

Module GoInt.
Definition min_int : Z := (- 2 ^ 63)%Z.
Definition max_int : Z := (2 ^ 63 - 1)%Z.

(** Two's complement wrap-around of a 64-bit [int]. *)
Definition wrap (z : Z) : Z := ((z + 2 ^ 63) `mod` 2 ^ 64 - 2 ^ 63)%Z.

Definition in_range (z : Z) : Prop := (min_int ≤ z ≤ max_int)%Z.

End GoInt.

Module GoTime.
(** [time.Time]: nanoseconds from the zero instant. *)
Definition Time : Type := Z.
Definition zero : Time := 0%Z.

(** [t.After(u)] reports whether [t] is later than [u]. *)
Definition After (t u : Time) : bool := (u <? t)%Z.

(** [t == u] on instants. *)
Definition eqb (t u : Time) : bool := (t =? u)%Z.

(** [time.Duration]: a count of nanoseconds. *)
Definition Duration : Type := Z.
Definition Nanosecond : Duration := 1%Z.
Definition Microsecond : Duration := (1000 * Nanosecond)%Z.
Definition Millisecond : Duration := (1000 * Microsecond)%Z.
Definition Second : Duration := (1000 * Millisecond)%Z.
End GoTime.

(** ** Channels of [struct{}] used through non-blocking [select] *)

Module Chan.
Record chan : Type := mk { cap : nat; len : nat }.

(** [make(chan struct{}, n)] *)
Definition make (n : nat) : chan := {| cap := n; len := 0 |}.

(** [select { case <-c: (true) default: (false) }].  A receive from the
    [nil] channel is never ready. *)
Definition try_recv (c : option chan) : bool * option chan :=
  match c with
  | Some ch =>
      if bool_decide (0 < len ch)
      then (true, Some {| cap := cap ch; len := len ch - 1 |})
      else (false, c)
  | None => (false, None)
  end.

(** [select { case c <- struct{}{}: default: }].  Nobody ever blocks in
    a receive on these channels, so a send is ready exactly when the
    buffer has room; a send on the [nil] channel is never ready. *)
Definition try_send (c : option chan) : option chan :=
  match c with
  | Some ch =>
      if bool_decide (len ch < cap ch)
      then Some {| cap := cap ch; len := S (len ch) |}
      else c
  | None => None
  end.
End Chan.

(** ** Errors *)

Module Errors.
(** An [error] value.  Errors are produced by the collaborators (the
    recurrence parser, the queue, a message); the scheduler only
    passes them on or wraps them. *)
Inductive error : Type :=
| External (description : string)
| BadRequestError (cause : error).

#[global] Instance error_eq_dec : EqDecision error.
Proof. solve_decision. Defined.

(** Modelled from the spec: [errors.BadRequest] of the package
    museum/diagnostic/errors, whose source is not part of the tree; the
    spec calls its result a validation failure reported to the caller.
    It wraps the cause. *)
Definition BadRequest (cause : error) : error := BadRequestError cause.

(** Modelled from the spec: [errors.Send] of the same package, which
    reports an error to the error sink.  The sink is the list of the
    errors sent, newest first. *)
Definition Send (err : error) (sink : list error) : list error :=
  err :: sink.
End Errors.
Export Errors.

(** ** The recurrence rule interface (package rrule, external) *)

Module RRule.
Import GoTime.
(** What the scheduler reads from a parsed rule: [rule.Options.Count],
    [rule.GetUntil()] and [rule.Before(t, inc)]. *)
Record rule : Type := mk {
  Options_Count : Z;
  GetUntil : Time;
  Before : Time → bool → Time
}.

(** The signature of [rrule.StrToRRule]: a rule, or an error. *)
Definition parser : Type := string → rule + error.
End RRule.

(** ** Task and TaskSchedule *)

Module TaskModel.
Import GoTime.

Record TaskSchedule : Type := mkSchedule {
  Recurrence : string;
  Count : Z;
  UpdatedAt : Time
}.

Record Task : Type := mkTask {
  Id : string;
  Schedule : TaskSchedule;
  lock : option Chan.chan
}.

(** The zero value of [TaskSchedule]. *)
Definition zero_schedule : TaskSchedule :=
  {| Recurrence := ""; Count := 0; UpdatedAt := zero |}.

(** Number of tokens in the task's lock slot. *)
Definition tokens (t : Task) : nat :=
  match lock t with Some ch => Chan.len ch | None => 0 end.

(** [func (t *Task) Lock() bool] *)
Definition Lock (t : Task) : bool * Task :=
  let '(ok, c) := Chan.try_recv (lock t) in
  (ok, {| Id := Id t; Schedule := Schedule t; lock := c |}).

(** [func (t *Task) Unlock()] *)
Definition Unlock (t : Task) : Task :=
  {| Id := Id t; Schedule := Schedule t; lock := Chan.try_send (lock t) |}.

(** [func (t *Task) Occurrences() int] *)
Definition Occurrences (t : Task) : Z := Count (Schedule t).

(** [func (t *Task) MarkScheduled(at time.Time) *Task] *)
Definition MarkScheduled (t : Task) (at_ : Time) : Task :=
  {| Id := Id t;
     Schedule := {| Recurrence := Recurrence (Schedule t);
                    Count := GoInt.wrap (Count (Schedule t) + 1);
                    UpdatedAt := at_ |};
     lock := lock t |}.

(** [func NewTask(id string) *Task] *)
Definition NewTask (id : string) : Task :=
  Unlock {| Id := id; Schedule := zero_schedule;
            lock := Some (Chan.make 1) |}.

Section WithParser.
(** [rrule.StrToRRule] *)
Variable StrToRRule : RRule.parser.

(** [func (t *Task) CanSchedule(now time.Time) bool] *)
Definition CanSchedule (t : Task) (now : Time) : bool :=
    let s := Schedule t in
    if decide (Recurrence s = "") then bool_decide (Count s = 0%Z)
    else
      match StrToRRule (Recurrence s) with
      | inl rule =>
          if bool_decide (RRule.Options_Count rule ≠ 0%Z)
             && bool_decide (RRule.Options_Count rule ≤ Count s)%Z
          then false
          else if After now (RRule.GetUntil rule) then false
          else if eqb (RRule.Before rule now true)
                      (RRule.Before rule (UpdatedAt s) true)
          then false
          else true
      | inr _ => false
      end.

(** [func (t *Task) IsComplete() bool]; [clock] is what [time.Now()]
      returns inside the call. *)
Definition IsComplete (t : Task) (clock : Time) : bool :=
    let s := Schedule t in
    if decide (Recurrence s = "") then bool_decide (Count s ≠ 0%Z)
    else
      let now := clock in
      match StrToRRule (Recurrence s) with
      | inl rule =>
          if bool_decide (RRule.Options_Count rule ≠ 0%Z)
             && bool_decide (RRule.Options_Count rule ≤ Count s)%Z
          then true
          else if After now (RRule.GetUntil rule) then true
          else false
      | inr _ => true
      end.

(** [func (t *Task) SetRecurrence(rfc string) error]; [None] is the
      [nil] error. *)
Definition SetRecurrence (t : Task) (rfc : string) : option error * Task :=
    match StrToRRule rfc with
    | inr err => (Some (BadRequest err), t)
    | inl _ =>
        (None,
         {| Id := Id t;
            Schedule := {| Recurrence := rfc;
                           Count := Count (Schedule t);
                           UpdatedAt := UpdatedAt (Schedule t) |};
            lock := lock t |})
    end.
End WithParser.

(** The slot made by [NewTask]: capacity one, at most one token. *)
Definition slot_ok (t : Task) : Prop :=
  ∃ n, lock t = Some {| Chan.cap := 1; Chan.len := n |} ∧ n ≤ 1.

(** Sequences of calls to the two lock methods. *)
Inductive lock_call : Type := CallLock | CallUnlock.

Definition do_call (t : Task) (c : lock_call) : Task :=
  match c with
  | CallLock => snd (Lock t)
  | CallUnlock => Unlock t
  end.

Definition run_calls (cs : list lock_call) (t : Task) : Task :=
  foldl do_call t cs.
End TaskModel.

(** ** The scheduler: configuration, ledger and [Add] *)

Module Sched.
Import GoTime.
Export TaskModel.

(** A [*Task]: the index of the task object in the store. *)
Abbreviation addr := nat.

(** The handle of the queue the scheduler writes to ([eque.RedQueue]).
    What the queue answers is chosen by the environment. *)
Inductive RedQueue : Type := QueueHandle (name : string).

(** A callback installed by the caller; closures are told apart by a
    number only. *)
Definition callback : Type := nat.

(** [DefaultInterval], [DefaultEnqueueTimeout], [DefaultDequeueTimeout] *)
Definition DefaultInterval : Duration := Millisecond.
Definition DefaultEnqueueTimeout : Duration := (10 * Millisecond)%Z.
Definition DefaultDequeueTimeout : Duration := (10 * Millisecond)%Z.

(** [type Scheduler struct].  The channels [stop] and [completed] and the
    wait group belong to the running loops (see [State]); [lock] guards
    [tasks] and is represented by the atomicity of the steps. *)
Record Scheduler : Type := mkScheduler {
  interval : Duration;
  queue : RedQueue;
  enqueueTimeout : Duration;
  dequeueTimeout : Duration;
  tasks : gmap string addr;
  notify : option callback;
  notifyWorker : option callback
}.

(** [func New(queue eque.RedQueue) *Scheduler] *)
Definition New (q : RedQueue) : Scheduler :=
  {| interval := DefaultInterval;
     queue := q;
     enqueueTimeout := DefaultEnqueueTimeout;
     dequeueTimeout := DefaultDequeueTimeout;
     tasks := ∅;
     notify := None;
     notifyWorker := None |}.

(** [func (s *Scheduler) Every(interval time.Duration) *Scheduler] *)
Definition Every (s : Scheduler) (d : Duration) : Scheduler :=
  {| interval := d; queue := queue s;
     enqueueTimeout := enqueueTimeout s; dequeueTimeout := dequeueTimeout s;
     tasks := tasks s; notify := notify s; notifyWorker := notifyWorker s |}.

(** [func (s *Scheduler) EnqueueTimeout(timeout time.Duration) *Scheduler] *)
Definition EnqueueTimeout (s : Scheduler) (d : Duration) : Scheduler :=
  {| interval := interval s; queue := queue s;
     enqueueTimeout := d; dequeueTimeout := dequeueTimeout s;
     tasks := tasks s; notify := notify s; notifyWorker := notifyWorker s |}.

(** [func (s *Scheduler) DequeueTimeout(timeout time.Duration) *Scheduler] *)
Definition DequeueTimeout (s : Scheduler) (d : Duration) : Scheduler :=
  {| interval := interval s; queue := queue s;
     enqueueTimeout := enqueueTimeout s; dequeueTimeout := d;
     tasks := tasks s; notify := notify s; notifyWorker := notifyWorker s |}.

(** [func (s *Scheduler) Notify(notify func(t *Task)) *Scheduler] *)
Definition Notify (s : Scheduler) (f : option callback) : Scheduler :=
  {| interval := interval s; queue := queue s;
     enqueueTimeout := enqueueTimeout s; dequeueTimeout := dequeueTimeout s;
     tasks := tasks s; notify := f; notifyWorker := notifyWorker s |}.

(** [func (s *Scheduler) NotifyWorker(notify func(msg eque.Message)) *Scheduler] *)
Definition NotifyWorker (s : Scheduler) (f : option callback) : Scheduler :=
  {| interval := interval s; queue := queue s;
     enqueueTimeout := enqueueTimeout s; dequeueTimeout := dequeueTimeout s;
     tasks := tasks s; notify := notify s; notifyWorker := f |}.

(** The ledger [s.tasks] replaced. *)
Definition with_tasks (s : Scheduler) (m : gmap string addr) : Scheduler :=
  {| interval := interval s; queue := queue s;
     enqueueTimeout := enqueueTimeout s; dequeueTimeout := dequeueTimeout s;
     tasks := m; notify := notify s; notifyWorker := notifyWorker s |}.

(** The first half of one iteration of [Add]: the empty-id test and the
    presence test under the read lock.  [true] when the iteration goes on
    to insert. *)
Definition add_wanted (s : Scheduler) (t : Task) : bool :=
  if decide (Id t = "") then false
  else match tasks s !! Id t with
       | Some _ => false
       | None => true
       end.

(** The second half: [s.tasks[task.Id] = task] under the write lock. *)
Definition add_insert (s : Scheduler) (p : addr) (t : Task) : Scheduler :=
  with_tasks s (<[Id t := p]> (tasks s)).




(** ** The worker handler built by [Worker] *)

(** An [eque.Message] as the handler uses it: its id, what [Decode]
    gives and what [Ack] gives. *)
Record Message : Type := mkMessage {
  msg_id : string;
  msg_decode : Task + error;
  msg_ack : option error
}.

(** What the handler and the goroutines it starts do, in order. *)
Inductive wevent : Type :=
| WDequeue                                   (* s.queue.Dequeue(dequeueCtx) *)
| WSend (e : error)                          (* errors.Send(err) *)
| WNotifyWorker (f : callback) (m : option Message) (* go s.notifyWorker(m) *)
| WSpawn (m : Message)                       (* go func() { ... }() *)
| WJob (t : Task)                            (* job(&task) *)
| WAck (m : Message).                        (* msg.Ack(ctx) *)

(** [if s.notifyWorker != nil { go s.notifyWorker(m) }] *)
Definition notify_worker (s : Scheduler) (m : option Message) : list wevent :=
  match notifyWorker s with
  | Some f => [WNotifyWorker f m]
  | None => []
  end.

(** The goroutine started for a dequeued message: decode, run the job,
    and on the way out acknowledge and notify. *)
Definition handle_message (s : Scheduler) (m : Message) : list wevent :=
  (match msg_decode m with
   | inr err => [WSend err]
   | inl t => [WJob t]
   end)
  ++ WAck m :: (match msg_ack m with Some err => [WSend err] | None => [] end)
  ++ notify_worker s (Some m).

(** What the loop does for the messages it dequeues without error. *)
Definition spawned (oks : list Message) : list wevent :=
  flat_map (λ m, [WDequeue; WSpawn m]) oks.

(** The number of [Dequeue] calls among the events. *)
Fixpoint dequeues (evs : list wevent) : nat :=
  match evs with
  | [] => 0
  | WDequeue :: evs' => S (dequeues evs')
  | _ :: evs' => dequeues evs'
  end.

Section WithClassifier.
(** [errors.IsFatal] of museum/diagnostic/errors. *)
Variable IsFatal : error → bool.

(** The loop of the handler [h] of [Worker], driven by the answers the
    queue gives to the successive [Dequeue] calls.  The result is what
    the loop did, whether it left the loop ([break]), and the answers it
    never asked for. With no answer left the loop is waiting in
    [Dequeue]. *)
Fixpoint handler (s : Scheduler) (answers : list (Message + error))
  : list wevent * bool * list (Message + error) :=
  match answers with
  | [] => ([], false, [])
  | inr err :: rest =>
      (WDequeue :: (if IsFatal err then [WSend err] else [])
                ++ notify_worker s None,
       true, rest)
  | inl msg :: rest =>
      let '(evs, stopped, unasked) := handler s rest in
      (WDequeue :: WSpawn msg :: evs, stopped, unasked)
  end.
End WithClassifier.
End Sched.

(** ** The loops of [Scheduler.start] as a transition system

    The goroutines share the store of task objects and the ledger.  Each
    label is one atomic action of one goroutine: a critical section of a
    mutex, a channel operation, or a call to a collaborator.  The callers
    of the scheduler are part of the system: they create tasks with
    [NewTask], change recurrences with [SetRecurrence] and register tasks
    with [Add], at any time.  They leave [Lock], [Unlock] and
    [MarkScheduled] to the dispatch loop and do not write the fields of a
    task themselves.  The ticks of the two loops and the cancellation of
    [Start] are not represented: a loop may take its next turn at any
    time, which covers every schedule of the timers. *)

Module Loops.
Import GoTime.
Export Sched.

(** Where a dispatch goroutine ([go func(task *Task) {...}(task)]) is. *)
Inductive pc : Type :=
| PcEnqueue      (* about to call s.queue.Enqueue *)
| PcMark         (* about to call task.MarkScheduled(now) *)
| PcIsComplete   (* about to evaluate task.IsComplete() *)
| PcSend         (* blocked in s.completed <- task *)
| PcExit         (* about to run the deferred Unlock and notify *)
| PcDone.        (* returned *)

#[global] Instance pc_eq_dec : EqDecision pc.
Proof. solve_decision. Defined.

(** The frame of a dispatch goroutine: its task and the [now] of the
    sweep that started it. *)
Record dispatch : Type := mkDispatch {
  d_task : addr;
  d_now : Time;
  d_pc : pc
}.

(** The dispatch loop: waiting for the next tick, holding the [now] it
    has just read, or inside [for _, task := range s.tasks] under the read
    lock with the keys already visited. *)
Inductive sweep_state : Type :=
| Idle
| GotNow (now : Time)
| Ranging (now : Time) (seen : gset string).

(** What has happened, newest first. *)
Inductive event : Type :=
| EvSetRecurrence (p : addr)          (* SetRecurrence replaced the rule *)
| EvNotify (f : callback) (p : addr)  (* go s.notify(task) *)
| EvEnqueued (i : nat) (p : addr)     (* Enqueue returned nil *)
| EvMarked (i : nat) (p : addr)       (* task.MarkScheduled(now) *)
| EvComplete (i : nat) (p : addr)     (* task.IsComplete() was true *)
| EvRelayed (i : nat) (p : addr)      (* s.completed <- task went through *)
| EvRemoved (k : string) (p : addr).  (* delete(s.tasks, task.Id) *)

#[global] Instance event_eq_dec : EqDecision event.
Proof. solve_decision. Defined.

Record State : Type := mkState {
  store : list Task;          (* the task objects; a *Task is an index *)
  sched : Scheduler;
  clock : Time;               (* what time.Now() returns *)
  sweep : sweep_state;        (* the dispatch loop *)
  units : list dispatch;      (* the dispatch goroutines, in spawn order *)
  retiring : option addr;     (* the retirement loop holds a received task *)
  adding : list addr;         (* callers of Add past the presence test *)
  sink : list error;          (* errors.Send, newest first *)
  events : list event
}.

Definition set_store (s : State) (h : list Task) : State :=
  {| store := h; sched := sched s; clock := clock s; sweep := sweep s;
     units := units s; retiring := retiring s; adding := adding s;
     sink := sink s; events := events s |}.

Definition set_sched (s : State) (sc : Scheduler) : State :=
  {| store := store s; sched := sc; clock := clock s; sweep := sweep s;
     units := units s; retiring := retiring s; adding := adding s;
     sink := sink s; events := events s |}.

Definition set_clock (s : State) (c : Time) : State :=
  {| store := store s; sched := sched s; clock := c; sweep := sweep s;
     units := units s; retiring := retiring s; adding := adding s;
     sink := sink s; events := events s |}.

Definition set_sweep (s : State) (w : sweep_state) : State :=
  {| store := store s; sched := sched s; clock := clock s; sweep := w;
     units := units s; retiring := retiring s; adding := adding s;
     sink := sink s; events := events s |}.

Definition set_units (s : State) (us : list dispatch) : State :=
  {| store := store s; sched := sched s; clock := clock s; sweep := sweep s;
     units := us; retiring := retiring s; adding := adding s;
     sink := sink s; events := events s |}.

Definition set_retiring (s : State) (r : option addr) : State :=
  {| store := store s; sched := sched s; clock := clock s; sweep := sweep s;
     units := units s; retiring := r; adding := adding s;
     sink := sink s; events := events s |}.

Definition set_adding (s : State) (a : list addr) : State :=
  {| store := store s; sched := sched s; clock := clock s; sweep := sweep s;
     units := units s; retiring := retiring s; adding := a;
     sink := sink s; events := events s |}.

Definition set_sink (s : State) (es : list error) : State :=
  {| store := store s; sched := sched s; clock := clock s; sweep := sweep s;
     units := units s; retiring := retiring s; adding := adding s;
     sink := es; events := events s |}.

Definition log (s : State) (e : event) : State :=
  {| store := store s; sched := sched s; clock := clock s; sweep := sweep s;
     units := units s; retiring := retiring s; adding := adding s;
     sink := sink s; events := e :: events s |}.

(** The goroutine [i] moves to [c]. *)
Definition set_pc (s : State) (i : nat) (u : dispatch) (c : pc) : State :=
  set_units s (<[i := {| d_task := d_task u; d_now := d_now u; d_pc := c |}]>
                 (units s)).

(** The goroutine [i], when it is at [c]. *)
Definition unit_at (s : State) (i : nat) (c : pc) : option dispatch :=
  match units s !! i with
  | Some u => if decide (d_pc u = c) then Some u else None
  | None => None
  end.

(** [if s.notify != nil { go s.notify(task) }] *)
Definition notify_task (s : State) (p : addr) : State :=
  match notify (sched s) with
  | Some f => log s (EvNotify f p)
  | None => s
  end.

(** Whether the read lock of the ledger is held (by the dispatch loop);
    a writer waits for it. *)
Definition read_locked (s : State) : bool :=
  match sweep s with
  | Ranging _ _ => true
  | _ => false
  end.

(** The actions. *)
Inductive label : Type :=
| LTick (d : Z)                           (* time passes; it never goes back *)
| LNewTask (id : string)                  (* a caller: NewTask(id) *)
| LSetRecurrence (p : addr) (rfc : string)(* a caller: task.SetRecurrence(rfc) *)
| LAddCheck (p : addr)                    (* Add: the tests of one iteration *)
| LAddInsert (n : nat)                    (* Add: the insertion, n-th waiting *)
| LSweepNow                               (* dispatch loop: now := time.Now() *)
| LSweepRLock                             (* dispatch loop: s.lock.RLock() *)
| LSweepVisit (k : string)                (* dispatch loop: the body for one key *)
| LSweepEnd                               (* dispatch loop: s.lock.RUnlock() *)
| LEnqueue (i : nat) (r : option error)   (* goroutine i: Enqueue answers r *)
| LMark (i : nat)                         (* goroutine i: MarkScheduled *)
| LIsComplete (i : nat)                   (* goroutine i: IsComplete *)
| LRelay (i : nat)                        (* s.completed: i sends, the loop receives *)
| LExit (i : nat)                         (* goroutine i: deferred Unlock, notify *)
| LRetireDelete.                          (* retirement loop: delete under Lock *)

Section WithParser.
Variable StrToRRule : RRule.parser.

(** The body of [for _, task := range s.tasks] for the key [k]: the
    non-blocking [Lock], the [CanSchedule] test, and then either the
    [Unlock] with its notification or the start of the goroutine.  The
    body is one step: once the lock is taken no other goroutine works on
    this task, and a [SetRecurrence] that comes in between has the effect
    it has just before or just after the body. *)
Definition sweep_visit (s : State) (now : Time) (seen : gset string)
    (k : string) : option State :=
  if decide (k ∈ seen) then None
  else
    match tasks (sched s) !! k with
    | None => None
    | Some p =>
        match store s !! p with
        | None => None
        | Some t =>
            let s1 := set_sweep s (Ranging now ({[k]} ∪ seen)) in
            let '(ok, t1) := Lock t in
            if negb ok then Some s1
            else if negb (CanSchedule StrToRRule t1 now)
            then Some (notify_task
                         (set_store s1 (<[p := Unlock t1]> (store s1))) p)
            else Some (set_units (set_store s1 (<[p := t1]> (store s1)))
                         (units s1 ++ [mkDispatch p now PcEnqueue]))
        end
    end.

Definition step (l : label) (s : State) : option State :=
  match l with
  | LTick d =>
      if decide (0 ≤ d)%Z then Some (set_clock s (clock s + d)%Z) else None
  | LNewTask id => Some (set_store s (store s ++ [NewTask id]))
  | LSetRecurrence p rfc =>
      match store s !! p with
      | None => None
      | Some t =>
          let '(err, t') := SetRecurrence StrToRRule t rfc in
          let s1 := set_store s (<[p := t']> (store s)) in
          Some (match err with
                | None => log s1 (EvSetRecurrence p)
                | Some _ => s1
                end)
      end
  | LAddCheck p =>
      match store s !! p with
      | None => None
      | Some t =>
          Some (if add_wanted (sched s) t
                then set_adding s (adding s ++ [p]) else s)
      end
  | LAddInsert n =>
      match adding s !! n with
      | None => None
      | Some p =>
          match store s !! p with
          | None => None
          | Some t =>
              if read_locked s then None
              else Some (set_adding
                           (set_sched s (add_insert (sched s) p t))
                           (delete n (adding s)))
          end
      end
  | LSweepNow =>
      match sweep s with
      | Idle => Some (set_sweep s (GotNow (clock s)))
      | _ => None
      end
  | LSweepRLock =>
      match sweep s with
      | GotNow now => Some (set_sweep s (Ranging now ∅))
      | _ => None
      end
  | LSweepVisit k =>
      match sweep s with
      | Ranging now seen => sweep_visit s now seen k
      | _ => None
      end
  | LSweepEnd =>
      match sweep s with
      | Ranging now seen =>
          if decide (dom (tasks (sched s)) ⊆ seen)
          then Some (set_sweep s Idle) else None
      | _ => None
      end
  | LEnqueue i r =>
      match unit_at s i PcEnqueue with
      | None => None
      | Some u =>
          match r with
          | Some err => Some (set_pc (set_sink s (Send err (sink s))) i u PcExit)
          | None => Some (log (set_pc s i u PcMark) (EvEnqueued i (d_task u)))
          end
      end
  | LMark i =>
      match unit_at s i PcMark with
      | None => None
      | Some u =>
          match store s !! d_task u with
          | None => None
          | Some t =>
              Some (log (set_pc
                           (set_store s (<[d_task u :=
                                             MarkScheduled t (d_now u)]>
                                           (store s)))
                           i u PcIsComplete)
                      (EvMarked i (d_task u)))
          end
      end
  | LIsComplete i =>
      match unit_at s i PcIsComplete with
      | None => None
      | Some u =>
          match store s !! d_task u with
          | None => None
          | Some t =>
              if IsComplete StrToRRule t (clock s)
              then Some (log (set_pc s i u PcSend) (EvComplete i (d_task u)))
              else Some (set_pc s i u PcExit)
          end
      end
  | LRelay i =>
      match unit_at s i PcSend with
      | None => None
      | Some u =>
          match retiring s with
          | Some _ => None
          | None =>
              Some (log (set_retiring (set_pc s i u PcExit)
                           (Some (d_task u)))
                      (EvRelayed i (d_task u)))
          end
      end
  | LExit i =>
      match unit_at s i PcExit with
      | None => None
      | Some u =>
          match store s !! d_task u with
          | None => None
          | Some t =>
              Some (notify_task
                      (set_pc (set_store s (<[d_task u := Unlock t]>
                                              (store s)))
                         i u PcDone)
                      (d_task u))
          end
      end
  | LRetireDelete =>
      match retiring s with
      | None => None
      | Some p =>
          match store s !! p with
          | None => None
          | Some t =>
              if read_locked s then None
              else Some (log (set_retiring
                                (set_sched s
                                   (with_tasks (sched s)
                                      (delete (Id t) (tasks (sched s)))))
                                None)
                           (EvRemoved (Id t) p))
          end
      end
  end.

(** A run: the labels in order. *)
Fixpoint run (ls : list label) (s : State) : option State :=
  match ls with
  | [] => Some s
  | l :: ls' =>
      match step l s with
      | None => None
      | Some s' => run ls' s'
      end
  end.
End WithParser.


(** The state after [New(q)] and [Notify(f)], read at clock [c0]. *)
Definition initial (q : RedQueue) (f : option callback) (c0 : Time) : State :=
  {| store := []; sched := Notify (New q) f; clock := c0; sweep := Idle;
     units := []; retiring := None; adding := []; sink := [];
     events := [] |}.

Definition reachable (StrToRRule : RRule.parser) (s : State) : Prop :=
  ∃ q f c0 ls, run StrToRRule ls (initial q f c0) = Some s.

(** Whether the last thing that happened to the rule of [p] is that a
    dispatch goroutine saw it complete (and no [SetRecurrence] replaced
    the rule since). *)
Fixpoint settled (evs : list event) (p : addr) : bool :=
  match evs with
  | [] => false
  | EvComplete _ q :: rest => if decide (q = p) then true else settled rest p
  | EvSetRecurrence q :: rest =>
      if decide (q = p) then false else settled rest p
  | _ :: rest => settled rest p
  end.

(** A goroutine that has not returned. *)
Definition active (u : dispatch) : Prop := d_pc u ≠ PcDone.

(** *** Invariants of the reachable states *)

(** The per-task lock: every slot is the one [NewTask] made; a task with
    a goroutine that has not returned has an empty slot; no two such
    goroutines share a task. *)
Record lock_ok (h : list Task) (us : list dispatch) : Prop := mkLockOk {
  lo_valid : ∀ i u, us !! i = Some u → is_Some (h !! d_task u);
  lo_slot : ∀ p t, h !! p = Some t → slot_ok t;
  lo_held : ∀ i u t, us !! i = Some u → active u →
                     h !! d_task u = Some t → tokens t = 0;
  lo_excl : ∀ i j ui uj, us !! i = Some ui → us !! j = Some uj →
                         active ui → active uj →
                         d_task ui = d_task uj → i = j
}.

Definition lock_inv (s : State) : Prop := lock_ok (store s) (units s).

(** What goroutine [i] on task [p] has logged when it is at [c]. *)
Definition chain (c : pc) (i : nat) (p : addr) : list event :=
  match c with
  | PcMark => [EvEnqueued i p]
  | PcIsComplete => [EvMarked i p; EvEnqueued i p]
  | PcSend => [EvComplete i p; EvMarked i p; EvEnqueued i p]
  | _ => []
  end.

(** What has been logged, newest first, when [p] has gone through the
    relay from goroutine [i]. *)
Definition relayed_chain (i : nat) (p : addr) : list event :=
  [EvRelayed i p; EvComplete i p; EvMarked i p; EvEnqueued i p].

(** The events logged by goroutine [i]. *)
Definition of_unit (i : nat) (e : event) : Prop :=
  match e with
  | EvEnqueued j _ | EvMarked j _ | EvComplete j _ | EvRelayed j _ => j = i
  | _ => False
  end.

(** The log is consistent with where the goroutines and the retirement
    loop are. *)
Record events_ok (s : State) : Prop := mkEventsOk {
  eo_units : ∀ i u, units s !! i = Some u →
                    chain (d_pc u) i (d_task u) `sublist_of` events s;
  eo_retiring : ∀ p, retiring s = Some p →
                     ∃ i, relayed_chain i p `sublist_of` events s;
  eo_removed : ∀ k p, EvRemoved k p ∈ events s →
                      ∃ i, EvRemoved k p :: relayed_chain i p
                           `sublist_of` events s;
  eo_quiet : ∀ i e, e ∈ events s → of_unit i e →
                    ∃ u, units s !! i = Some u ∧ d_pc u ≠ PcEnqueue
}.

(** The pointers held by the ledger and the retirement loop are task
    objects, filed under their own ids. *)
Record refs_ok (s : State) : Prop := mkRefsOk {
  ro_ledger : ∀ k p, tasks (sched s) !! k = Some p →
                     ∃ t, store s !! p = Some t ∧ Id t = k;
  ro_retiring : ∀ p, retiring s = Some p → is_Some (store s !! p);
  ro_removed : ∀ k p, EvRemoved k p ∈ events s →
                      ∃ t, store s !! p = Some t ∧ Id t = k
}.

Section Invariants.
Variable StrToRRule : RRule.parser.

(** The rule of [t] parses and its series has ended before [c]. *)
Definition until_complete (t : Task) (c : Time) : Prop :=
  Recurrence (Schedule t) ≠ ""
  ∧ ∃ rule, StrToRRule (Recurrence (Schedule t)) = inl rule
            ∧ After c (RRule.GetUntil rule) = true.

(** A task seen complete whose rule was not replaced since is still
    complete; a goroutine that is yet to mark it can only have been
    started by a sweep whose [now] was before the end of the series. *)
Record settled_ok (s : State) : Prop := mkSettledOk {
  so_alloc : ∀ p, settled (events s) p = true → is_Some (store s !! p);
  so_complete : ∀ p t, settled (events s) p = true → store s !! p = Some t →
                       IsComplete StrToRRule t (clock s) = true;
  so_pending : ∀ p t i u, settled (events s) p = true →
                          store s !! p = Some t →
                          units s !! i = Some u → d_task u = p →
                          d_pc u = PcEnqueue ∨ d_pc u = PcMark →
                          until_complete t (clock s)
}.

Record inv (s : State) : Prop := mkInv {
  inv_lock : lock_inv s;
  inv_events : events_ok s;
  inv_refs : refs_ok s;
  inv_settled : settled_ok s
}.
End Invariants.
End Loops.

(** ** A stand-in for the recurrence parser, for examples *)

Module Fixture.
Import GoTime.

Definition day : Duration := (86400 * Second)%Z.

(** 2021-01-01T00:00:00Z and 2021-01-03T00:00:00Z. *)
Definition start : Time := (737790 * day)%Z.
Definition third_day : Time := (start + 2 * day)%Z.
Definition far_future : Time := (3000000 * day)%Z.

(** A daily rule from [start], with an occurrence cap ([0]: none) and a
    series end.  [Before] gives the last occurrence before [t] ([inc]: or
    at [t]), the zero instant when there is none. *)
Definition daily (cap : Z) (until : Time) : RRule.rule :=
  {| RRule.Options_Count := cap;
     RRule.GetUntil := until;
     RRule.Before := λ t inc,
       let t' := ((if inc then t else t - 1) - start)%Z in
       if (t' <? 0)%Z then zero
       else
         let n := (t' `div` day)%Z in
         let n' := if (0 <? cap)%Z then Z.min n (cap - 1) else n in
         (start + n' * day)%Z |}.

(** Three rule strings and the rules they denote; every other string is
    refused. *)
Definition parse : RRule.parser := λ s,
  if decide (s = "FREQ=DAILY;DTSTART=20210101T000000Z")
  then inl (daily 0 far_future)
  else if decide (s = "FREQ=DAILY;DTSTART=20210101T000000Z;COUNT=3")
  then inl (daily 3 far_future)
  else if decide (s = "FREQ=DAILY;DTSTART=20210101T000000Z;UNTIL=20210103T000000Z")
  then inl (daily 0 third_day)
  else inr (External "wrong format").

(** A scheduler on the queue "jobs", no callback, started at [start]. *)
Definition fresh : Loops.State :=
  Loops.initial (Sched.QueueHandle "jobs") None start.

(** One task is made and registered and a sweep starts a dispatch
    goroutine for it. *)
Definition dispatch_run (id : string) : list Loops.label :=
  [Loops.LNewTask id; Loops.LAddCheck 0; Loops.LAddInsert 0;
   Loops.LSweepNow; Loops.LSweepRLock; Loops.LSweepVisit id;
   Loops.LSweepEnd].

(** The one-shot task "t1" is dispatched with success, seen complete and
    passed to the retirement loop. *)
Definition one_shot_run : list Loops.label :=
  dispatch_run "t1"
  ++ [Loops.LEnqueue 0 None; Loops.LMark 0; Loops.LIsComplete 0;
      Loops.LRelay 0; Loops.LExit 0].

(** The same, but while the goroutine waits on the relay the caller
    gives the task a daily rule. *)
Definition rescheduled_run : list Loops.label :=
  dispatch_run "t1"
  ++ [Loops.LEnqueue 0 None; Loops.LMark 0; Loops.LIsComplete 0;
      Loops.LSetRecurrence 0 "FREQ=DAILY;DTSTART=20210101T000000Z";
      Loops.LRelay 0; Loops.LExit 0].

(** Two callers register two tasks with the id "x" and both pass the
    presence test before either inserts; the first task is dispatched,
    seen complete and passed to the retirement loop; the second caller
    then inserts. *)
Definition racing_run : list Loops.label :=
  [Loops.LNewTask "x"; Loops.LNewTask "x"; Loops.LAddCheck 0;
   Loops.LAddCheck 1; Loops.LAddInsert 0;
   Loops.LSweepNow; Loops.LSweepRLock; Loops.LSweepVisit "x";
   Loops.LSweepEnd;
   Loops.LEnqueue 0 None; Loops.LMark 0; Loops.LIsComplete 0;
   Loops.LRelay 0; Loops.LExit 0; Loops.LAddInsert 0].



(** A classifier of errors for examples: only "connection lost" is
    fatal. *)
Definition is_fatal (e : error) : bool :=
  bool_decide (e = External "connection lost").
End Fixture.

(** * Properties *)

(** ** Machine integers *)

Lemma wrap_in_range z : GoInt.in_range z → GoInt.wrap z = z.
Proof.
  unfold GoInt.in_range, GoInt.min_int, GoInt.max_int, GoInt.wrap.
  intros H. rewrite Z.mod_small; lia.
Qed.

Lemma wrap_range z : GoInt.in_range (GoInt.wrap z).
Proof.
  unfold GoInt.in_range, GoInt.min_int, GoInt.max_int, GoInt.wrap.
  pose proof (Z.mod_pos_bound (z + 2 ^ 63) (2 ^ 64)). lia.
Qed.

(** The count of a task stays a machine integer. *)
Lemma MarkScheduled_in_range (t : TaskModel.Task) (at_ : GoTime.Time) :
  GoInt.in_range
    (TaskModel.Count (TaskModel.Schedule (TaskModel.MarkScheduled t at_))).
Proof. apply wrap_range. Qed.

(** ** The lock slot of a task *)

Module LockFacts.
Import TaskModel.

Lemma slot_ok_NewTask id : slot_ok (NewTask id).
Proof. exists 1. split; [reflexivity | lia]. Qed.

Lemma slot_ok_Lock t : slot_ok t → slot_ok (snd (Lock t)).
Proof.
  intros (n & Hl & Hn). unfold Lock, Chan.try_recv. rewrite Hl. simpl.
  case_bool_decide; simpl.
  - exists (n - 0 - 1). split; [by rewrite Nat.sub_0_r | lia].
  - exists n. auto.
Qed.

Lemma slot_ok_Unlock t : slot_ok t → slot_ok (Unlock t).
Proof.
  intros (n & Hl & Hn). unfold Unlock, Chan.try_send. rewrite Hl. simpl.
  case_bool_decide; simpl.
  - exists (S n). split; [done | lia].
  - exists n. auto.
Qed.

Lemma slot_ok_run calls : ∀ t, slot_ok t → slot_ok (run_calls calls t).
Proof.
  induction calls as [|c calls IH]; intros t Ht; [exact Ht|].
  apply IH. destruct c; [by apply slot_ok_Lock | by apply slot_ok_Unlock].
Qed.

Lemma slot_ok_tokens t : slot_ok t → tokens t = 0 ∨ tokens t = 1.
Proof. intros (n & Hl & Hn). unfold tokens. rewrite Hl. simpl. lia. Qed.

Lemma Lock_true_iff t : slot_ok t → (fst (Lock t) = true ↔ tokens t = 1).
Proof.
  intros (n & Hl & Hn). unfold Lock, Chan.try_recv, tokens. rewrite Hl. simpl.
  case_bool_decide; simpl; split; intros; try done; lia.
Qed.

Lemma Lock_takes t : slot_ok t → tokens (snd (Lock t)) = 0.
Proof.
  intros (n & Hl & Hn). unfold Lock, Chan.try_recv, tokens. rewrite Hl. simpl.
  case_bool_decide; simpl; lia.
Qed.

Lemma Lock_false_same t : fst (Lock t) = false → snd (Lock t) = t.
Proof.
  unfold Lock, Chan.try_recv. destruct t as [i sc [ch|]]; simpl; [|done].
  case_bool_decide; simpl; [discriminate | done].
Qed.

Lemma Unlock_gives t : slot_ok t → tokens (Unlock t) = 1.
Proof.
  intros (n & Hl & Hn). unfold Unlock, Chan.try_send, tokens. rewrite Hl.
  simpl. case_bool_decide; simpl; lia.
Qed.

Lemma Unlock_occupied t : slot_ok t → tokens t = 1 → Unlock t = t.
Proof.
  intros (n & Hl & Hn). unfold Unlock, Chan.try_send, tokens. rewrite Hl.
  simpl. intros ->. case_bool_decide; [lia|].
  destruct t; simpl in *; by subst.
Qed.

(** C1.  Whatever sequence of [Lock] and [Unlock] calls is made on a
    task built by [NewTask], its slot holds zero tokens or one; the new
    task holds one; [Lock] returns true exactly when the token is there,
    leaves the slot empty, and changes nothing when it returns false;
    [Unlock] on an occupied slot changes nothing, and after [Unlock]
    there is exactly one token. *)
Theorem lock_slot_zero_or_one (id : string) (calls : list lock_call) :
  let t := run_calls calls (NewTask id) in
  tokens (NewTask id) = 1
  ∧ (tokens t = 0 ∨ tokens t = 1)
  ∧ (fst (Lock t) = true ↔ tokens t = 1)
  ∧ tokens (snd (Lock t)) = 0
  ∧ (fst (Lock t) = false → snd (Lock t) = t)
  ∧ (tokens t = 1 → Unlock t = t)
  ∧ tokens (Unlock t) = 1.
Proof.
  intros t.
  assert (Hok : slot_ok t) by apply slot_ok_run, slot_ok_NewTask.
  split; [reflexivity|].
  split; [by apply slot_ok_tokens|].
  split; [by apply Lock_true_iff|].
  split; [by apply Lock_takes|].
  split; [apply Lock_false_same|].
  split; [by apply Unlock_occupied | by apply Unlock_gives].
Qed.
End LockFacts.

(** ** The recurrence state of a task *)

Module ScheduleFacts.
Import GoTime TaskModel.

Section WithParser.
Variable StrToRRule : RRule.parser.

Lemma run_calls_Schedule calls :
  ∀ t, Schedule (run_calls calls t) = Schedule t
       ∧ Id (run_calls calls t) = Id t.
Proof.
  induction calls as [|c calls IH]; intros t; [done|].
  simpl. destruct (IH (do_call t c)) as [-> ->].
  destruct c; simpl; [|done].
  unfold Lock. by destruct (Chan.try_recv (lock t)).
Qed.

(** C2.  With an empty recurrence, [CanSchedule] is true exactly when
    the count is zero and [IsComplete] exactly when it is not, at any
    time; so after the first [MarkScheduled] the task can no longer be
    scheduled and is complete. *)
Theorem one_shot_schedulable_once (t : Task) (now clock at_ : Time) :
  Recurrence (Schedule t) = "" →
  (CanSchedule StrToRRule t now = true ↔ Count (Schedule t) = 0%Z)
  ∧ (IsComplete StrToRRule t clock = true ↔ Count (Schedule t) ≠ 0%Z)
  ∧ (Count (Schedule t) = 0%Z →
     CanSchedule StrToRRule (MarkScheduled t at_) now = false
     ∧ IsComplete StrToRRule (MarkScheduled t at_) clock = true).
Proof.
  intros Hrec. unfold CanSchedule, IsComplete. simpl. rewrite Hrec.
  destruct (decide ("" = "")) as [_|]; [|done].
  split; [apply bool_decide_eq_true|].
  split; [apply bool_decide_eq_true|].
  intros ->. split; reflexivity.
Qed.

(** C3.  With a recurrence that is set and does not parse,
    [CanSchedule] is false at any time and [IsComplete] is true. *)
Theorem malformed_rule_asymmetry (t : Task) (err : error) (now clock : Time) :
  Recurrence (Schedule t) ≠ "" →
  StrToRRule (Recurrence (Schedule t)) = inr err →
  CanSchedule StrToRRule t now = false
  ∧ IsComplete StrToRRule t clock = true.
Proof.
  intros Hne Herr. unfold CanSchedule, IsComplete. simpl.
  destruct (decide (Recurrence (Schedule t) = "")); [done|].
  by rewrite Herr.
Qed.

(** C6.  [SetRecurrence] with a string that does not parse returns the
    validation error and the task as it was; with a string that parses
    it returns no error and only the recurrence is replaced. *)
Theorem SetRecurrence_validates (t : Task) (rfc : string) :
  match StrToRRule rfc with
  | inr err => SetRecurrence StrToRRule t rfc = (Some (BadRequest err), t)
  | inl _ =>
      fst (SetRecurrence StrToRRule t rfc) = None
      ∧ Recurrence (Schedule (snd (SetRecurrence StrToRRule t rfc))) = rfc
      ∧ Count (Schedule (snd (SetRecurrence StrToRRule t rfc)))
        = Count (Schedule t)
      ∧ UpdatedAt (Schedule (snd (SetRecurrence StrToRRule t rfc)))
        = UpdatedAt (Schedule t)
      ∧ Id (snd (SetRecurrence StrToRRule t rfc)) = Id t
      ∧ lock (snd (SetRecurrence StrToRRule t rfc)) = lock t
  end.
Proof.
  unfold SetRecurrence. destruct (StrToRRule rfc); simpl; auto 10.
Qed.

(** C10.  The task made by [NewTask] has an empty recurrence, count zero
    and the zero instant as [UpdatedAt]; as long as only [Lock] and
    [Unlock] are called on it, [CanSchedule] is true at any time and
    [IsComplete] is false. *)
Theorem NewTask_is_pending (id : string) (calls : list lock_call)
    (now clock : Time) :
  Id (NewTask id) = id
  ∧ Recurrence (Schedule (NewTask id)) = ""
  ∧ Count (Schedule (NewTask id)) = 0%Z
  ∧ UpdatedAt (Schedule (NewTask id)) = zero
  ∧ CanSchedule StrToRRule (run_calls calls (NewTask id)) now = true
  ∧ IsComplete StrToRRule (run_calls calls (NewTask id)) clock = false.
Proof.
  repeat (split; [reflexivity|]).
  unfold CanSchedule, IsComplete.
  destruct (run_calls_Schedule calls (NewTask id)) as [-> _].
  split; reflexivity.
Qed.

(** [MarkScheduled] adds one to the count, short of the largest [int],
    and records the time. *)
Lemma MarkScheduled_Count (t : Task) (at_ : Time) :
  GoInt.in_range (Count (Schedule t)) →
  (Count (Schedule t) < GoInt.max_int)%Z →
  Count (Schedule (MarkScheduled t at_)) = (Count (Schedule t) + 1)%Z
  ∧ UpdatedAt (Schedule (MarkScheduled t at_)) = at_
  ∧ Recurrence (Schedule (MarkScheduled t at_)) = Recurrence (Schedule t).
Proof.
  intros Hr Hlt. simpl. split; [|done]. apply wrap_in_range.
  unfold GoInt.in_range, GoInt.min_int, GoInt.max_int in *. lia.
Qed.

(** Once [IsComplete] is true at some clock reading, [CanSchedule] is
    false from that reading on. *)
Lemma complete_not_schedulable (t : Task) (clock now : Time) :
  IsComplete StrToRRule t clock = true → (clock ≤ now)%Z →
  CanSchedule StrToRRule t now = false.
Proof.
  unfold IsComplete, CanSchedule, After. simpl.
  destruct (decide (Recurrence (Schedule t) = "")).
  - intros H _. apply bool_decide_eq_true in H. by apply bool_decide_eq_false.
  - destruct (StrToRRule (Recurrence (Schedule t))) as [rule|]; [|done].
    destruct (_ && _); [done|].
    destruct (Z.ltb_spec (RRule.GetUntil rule) clock); [|done].
    intros _ Hle. destruct (Z.ltb_spec (RRule.GetUntil rule) now); [done|lia].
Qed.

(** [IsComplete] stays true as the clock advances. *)
Lemma complete_later (t : Task) (clock clock' : Time) :
  IsComplete StrToRRule t clock = true → (clock ≤ clock')%Z →
  IsComplete StrToRRule t clock' = true.
Proof.
  unfold IsComplete, After. simpl.
  destruct (decide (Recurrence (Schedule t) = "")); [done|].
  destruct (StrToRRule (Recurrence (Schedule t))) as [rule|]; [|done].
  destruct (_ && _); [done|].
  destruct (Z.ltb_spec (RRule.GetUntil rule) clock); [|done].
  intros _ Hle. destruct (Z.ltb_spec (RRule.GetUntil rule) clock'); [done|lia].
Qed.
End WithParser.

Lemma one_shot_schedulable_once_witness :
  Recurrence (Schedule (NewTask "t1")) = ""
  ∧ (CanSchedule Fixture.parse (NewTask "t1") 5%Z = true
     ↔ Count (Schedule (NewTask "t1")) = 0%Z).
Proof.
  split; [reflexivity|].
  exact (proj1 (one_shot_schedulable_once Fixture.parse (NewTask "t1")
                  5%Z 7%Z 5%Z eq_refl)).
Defined.

Lemma malformed_rule_asymmetry_witness :
  let t := {| Id := "t9";
              Schedule := {| Recurrence := "EVERY DAY"; Count := 0;
                             UpdatedAt := zero |};
              lock := None |} in
  Fixture.parse (Recurrence (Schedule t)) = inr (External "wrong format")
  ∧ CanSchedule Fixture.parse t 5%Z = false
  ∧ IsComplete Fixture.parse t 7%Z = true.
Proof.
  intros t. split; [reflexivity|].
  apply (malformed_rule_asymmetry Fixture.parse t (External "wrong format")
           5%Z 7%Z); [discriminate | reflexivity].
Defined.
End ScheduleFacts.

(** ** Configuration defaults *)

Module ConfigFacts.
Import GoTime Sched.

(** C9, as the code has it.  A scheduler made by [New] sweeps every
    millisecond, exactly, and allows ten milliseconds for an enqueue and
    for a dequeue; no task is registered and no callback is installed. *)
Theorem New_defaults (q : RedQueue) :
  interval (New q) = Millisecond
  ∧ interval (New q) = 1000000%Z
  ∧ enqueueTimeout (New q) = (10 * Millisecond)%Z
  ∧ dequeueTimeout (New q) = (10 * Millisecond)%Z
  ∧ (10 * Millisecond ≤ enqueueTimeout (New q) < 100 * Millisecond)%Z
  ∧ (10 * Millisecond ≤ dequeueTimeout (New q) < 100 * Millisecond)%Z
  ∧ tasks (New q) = ∅
  ∧ notify (New q) = None
  ∧ notifyWorker (New q) = None.
Proof. repeat split; reflexivity || (vm_compute; congruence). Qed.

(** C9, as stated: the default sweep interval is not below one
    millisecond. *)
Lemma New_interval_not_sub_millisecond :
  ¬ (interval (New (QueueHandle "jobs")) < Millisecond)%Z.
Proof. vm_compute. congruence. Qed.
End ConfigFacts.

(** ** Registration *)

Module LedgerFacts.
Import Sched.




End LedgerFacts.

(** ** The worker handler *)

Module WorkerFacts.
Import Sched.

Section WithClassifier.
Variable IsFatal : error → bool.

Lemma handler_until_error s oks err rest :
  handler IsFatal s (map inl oks ++ inr err :: rest)
  = (spawned oks
       ++ WDequeue :: (if IsFatal err then [WSend err] else [])
       ++ notify_worker s None,
     true, rest).
Proof.
  induction oks as [|m oks IH]; simpl; [done|]. by rewrite IH.
Qed.

Lemma spawned_no_send oks e : WSend e ∉ spawned oks.
Proof.
  induction oks as [|m oks IH]; simpl.
  - apply not_elem_of_nil.
  - intros H. apply elem_of_cons in H as [?|H]; [done|].
    apply elem_of_cons in H as [?|H]; [done|]. by apply IH.
Qed.

Lemma dequeues_app evs evs' :
  dequeues (evs ++ evs') = dequeues evs + dequeues evs'.
Proof.
  induction evs as [|e evs IH]; simpl; [done|].
  destruct e; simpl; by rewrite IH.
Qed.

Lemma spawned_dequeues oks : dequeues (spawned oks) = length oks.
Proof. induction oks as [|m oks IH]; simpl; [done|]. by rewrite IH. Qed.

(** C8.  When a [Dequeue] call returns an error, after any number of
    messages dequeued without one, the handler sends the error to the
    sink exactly when it is fatal, starts the worker callback, when one
    is installed, with no message, and leaves its loop: the answers the
    queue would give next are never asked for, and the failed call is
    the last [Dequeue]. *)
Theorem dequeue_error_ends_handler (s : Scheduler) (oks : list Message)
    (err : error) (rest : list (Message + error)) :
  let '(evs, stopped, unasked) :=
    handler IsFatal s (map inl oks ++ inr err :: rest) in
  evs = spawned oks
        ++ WDequeue :: (if IsFatal err then [WSend err] else [])
        ++ match notifyWorker s with
           | Some f => [WNotifyWorker f None]
           | None => []
           end
  ∧ (WSend err ∈ evs ↔ IsFatal err = true)
  ∧ (∀ f, notifyWorker s = Some f → WNotifyWorker f None ∈ evs)
  ∧ stopped = true
  ∧ unasked = rest
  ∧ dequeues evs = S (length oks).
Proof.
  rewrite handler_until_error. unfold notify_worker.
  split; [done|]. split.
  { rewrite elem_of_app, elem_of_cons, elem_of_app. split.
    - intros [H|[H|[H|H]]].
      + by apply spawned_no_send in H.
      + done.
      + destruct (IsFatal err); [done | by apply not_elem_of_nil in H].
      + destruct (notifyWorker s); simpl in H.
        * by apply list_elem_of_singleton in H.
        * by apply not_elem_of_nil in H.
    - intros ->. right. right. left. apply list_elem_of_singleton. done. }
  split.
  { intros f ->. rewrite elem_of_app, elem_of_cons, elem_of_app.
    right. right. right. by apply list_elem_of_singleton. }
  do 2 (split; [done|]).
  rewrite dequeues_app, spawned_dequeues. simpl.
  rewrite dequeues_app.
  destruct (IsFatal err), (notifyWorker s); simpl; lia.
Qed.

(** A message that does not decode is acknowledged all the same, and
    the job is not run for it. *)
Lemma handle_message_decode_error s m err :
  msg_decode m = inr err →
  handle_message s m
  = WSend err :: WAck m
      :: (match msg_ack m with Some e => [WSend e] | None => [] end)
      ++ notify_worker s (Some m).
Proof. intros H. unfold handle_message. by rewrite H. Qed.
End WithClassifier.

Example handler_stops_at_timeout :
  let m := {| msg_id := "m1"; msg_decode := inl (NewTask "t1");
              msg_ack := None |} in
  handler Fixture.is_fatal (New (QueueHandle "jobs"))
    [inl m; inr (External "timeout"); inl m]
  = ([WDequeue; WSpawn m; WDequeue], true, [inl m]).
Proof. reflexivity. Qed.
End WorkerFacts.

(** ** The loops *)

Module LoopFacts.
Import GoTime Loops LockFacts ScheduleFacts LedgerFacts.

Ltac step_cases H :=
  repeat match type of H with
         | match ?x with _ => _ end = Some _ => destruct x eqn:?; try discriminate H
         | (if ?x then _ else _) = Some _ => destruct x eqn:?; try discriminate H
         | (let '(_, _) := ?x in _) = Some _ => destruct x eqn:?
         end.

Ltac norm_pairs :=
  repeat match goal with
         | H : ?f = (?a, ?b) |- _ =>
             is_var a; is_var b;
             let Ha := fresh in let Hb := fresh in
             pose proof (f_equal fst H) as Ha; pose proof (f_equal snd H) as Hb;
             simpl in Ha, Hb; clear H; subst a b
         end.

Lemma unit_at_Some s i c u : unit_at s i c = Some u → units s !! i = Some u ∧ d_pc u = c.
Proof. unfold unit_at. destruct (units s !! i); [|done]. case_decide; naive_solver. Qed.

Lemma slot_ok_same_lock t t' : lock t' = lock t → slot_ok t → slot_ok t'.
Proof. unfold slot_ok. by intros ->. Qed.

Lemma tokens_same_lock t t' : lock t' = lock t → tokens t' = tokens t.
Proof. unfold tokens. by intros ->. Qed.

Lemma insert_lookup_cases {A} (l : list A) i j x y :
  <[i := x]> l !! j = Some y →
  (j = i ∧ y = x ∧ is_Some (l !! i)) ∨ (j ≠ i ∧ l !! j = Some y).
Proof.
  intros H. apply list_lookup_insert_Some in H as [(-> & -> & Hlt)|[? ?]]; [left|right; done].
  split; [done|]. split; [done|]. by apply lookup_lt_is_Some.
Qed.

Lemma lock_ok_alloc h us t : lock_ok h us → slot_ok t → lock_ok (h ++ [t]) us.
Proof.
  intros [V L1 L2 L3] Ht. constructor.
  - intros i u Hu. destruct (V i u Hu) as [t' Ht']. exists t'.
    by apply lookup_app_l_Some.
  - intros p t' Hp. apply lookup_app_Some in Hp as [Hp|[_ Hp]]; [eauto|].
    apply list_lookup_singleton_Some in Hp as [_ <-]. done.
  - intros i u t' Hu Ha Hp. destruct (V i u Hu) as [t'' Ht''].
    rewrite (lookup_app_l_Some _ _ _ _ Ht'') in Hp. simplify_eq. eauto.
  - done.
Qed.

Lemma lock_ok_same_lock h us p t t' :
  lock_ok h us → h !! p = Some t → lock t' = lock t → lock_ok (<[p := t']> h) us.
Proof.
  intros [V L1 L2 L3] Hp Hl. constructor.
  - intros i u Hu. apply lookup_lt_is_Some. rewrite length_insert.
    apply lookup_lt_is_Some. eauto.
  - intros q tq Hq. apply insert_lookup_cases in Hq as [(-> & -> & _)|[_ Hq]]; [|eauto].
    eapply slot_ok_same_lock; eauto.
  - intros i u tq Hu Ha Hq. apply insert_lookup_cases in Hq as [(Hd & -> & _)|[_ Hq]]; [|eauto].
    rewrite (tokens_same_lock _ _ Hl). rewrite <- Hd in Hp. eauto.
  - done.
Qed.

Lemma lock_ok_spawn h us p t now :
  lock_ok h us → h !! p = Some t → fst (Lock t) = true →
  lock_ok (<[p := snd (Lock t)]> h) (us ++ [mkDispatch p now PcEnqueue]).
Proof.
  intros [V L1 L2 L3] Hp Hok.
  assert (Htok : tokens t = 1) by (apply Lock_true_iff; eauto).
  assert (Hfree : ∀ i u, us !! i = Some u → active u → d_task u ≠ p).
  { intros i u Hu Ha Heq. subst p. specialize (L2 i u t Hu Ha Hp). lia. }
  constructor.
  - intros i u Hu. apply lookup_lt_is_Some. rewrite length_insert.
    apply lookup_lt_is_Some.
    apply lookup_app_Some in Hu as [Hu|[_ Hu]]; [eauto|].
    apply list_lookup_singleton_Some in Hu as [_ <-]. simpl. eauto.
  - intros q tq Hq. apply insert_lookup_cases in Hq as [(-> & -> & _)|[_ Hq]]; [|eauto].
    apply slot_ok_Lock; eauto.
  - intros i u tq Hu Ha Hq.
    apply lookup_app_Some in Hu as [Hu|[_ Hu]].
    + rewrite list_lookup_insert_ne in Hq by (symmetry; eauto). eauto.
    + apply list_lookup_singleton_Some in Hu as [_ <-]. simpl in Hq.
      apply insert_lookup_cases in Hq as [(_ & -> & _)|[? _]]; [|done].
      apply Lock_takes; eauto.
  - intros i j ui uj Hi Hj Hai Haj Heq.
    apply lookup_app_Some in Hi as [Hi|[Hli Hi]];
      apply lookup_app_Some in Hj as [Hj|[Hlj Hj]].
    + eauto.
    + apply list_lookup_singleton_Some in Hj as [_ <-]. simpl in Heq.
      by destruct (Hfree i ui Hi Hai).
    + apply list_lookup_singleton_Some in Hi as [_ <-]. simpl in Heq.
      by destruct (Hfree j uj Hj Haj).
    + apply list_lookup_singleton_Some in Hi as [Hi _].
      apply list_lookup_singleton_Some in Hj as [Hj _]. lia.
Qed.

Lemma lock_ok_move h us i u c :
  lock_ok h us → us !! i = Some u → active u →
  lock_ok h (<[i := mkDispatch (d_task u) (d_now u) c]> us).
Proof.
  intros [V L1 L2 L3] Hu Ha. constructor.
  - intros j uj Hj. apply insert_lookup_cases in Hj as [(-> & -> & _)|[_ Hj]]; simpl; eauto.
  - done.
  - intros j uj t Hj Haj Ht.
    apply insert_lookup_cases in Hj as [(-> & -> & _)|[_ Hj]]; simpl in *; eauto.
  - intros j k uj uk Hj Hk Haj Hak Heq.
    apply insert_lookup_cases in Hj as [(-> & -> & _)|[Hne Hj]];
      apply insert_lookup_cases in Hk as [(-> & -> & _)|[Hne' Hk]]; simpl in *; eauto.
Qed.

Lemma lock_ok_exit h us i u t :
  lock_ok h us → us !! i = Some u → active u → h !! d_task u = Some t →
  lock_ok (<[d_task u := Unlock t]> h)
          (<[i := mkDispatch (d_task u) (d_now u) PcDone]> us).
Proof.
  intros [V L1 L2 L3] Hu Ha Ht. constructor.
  - intros j uj Hj. apply lookup_lt_is_Some. rewrite length_insert.
    apply lookup_lt_is_Some.
    apply insert_lookup_cases in Hj as [(-> & -> & _)|[_ Hj]]; simpl; eauto.
  - intros q tq Hq. apply insert_lookup_cases in Hq as [(-> & -> & _)|[_ Hq]]; [|eauto].
    apply slot_ok_Unlock; eauto.
  - intros j uj tq Hj Haj Hq.
    apply insert_lookup_cases in Hj as [(-> & -> & _)|[Hne Hj]]; [by destruct Haj|].
    apply insert_lookup_cases in Hq as [(Heq & -> & _)|[_ Hq]]; [|eauto].
    destruct Hne. eauto.
  - intros j k uj uk Hj Hk Haj Hak Heq.
    apply insert_lookup_cases in Hj as [(-> & -> & _)|[Hne Hj]]; [by destruct Haj|].
    apply insert_lookup_cases in Hk as [(-> & -> & _)|[Hne' Hk]]; [by destruct Hak|].
    eauto.
Qed.

Lemma Unlock_Lock t : slot_ok t → fst (Lock t) = true → lock (Unlock (snd (Lock t))) = lock t.
Proof.
  intros (n & Hl & Hn). unfold Lock, Unlock, Chan.try_recv, Chan.try_send.
  rewrite Hl. simpl. case_bool_decide; simpl; [|done]. intros _.
  case_bool_decide; simpl; [|lia]. f_equal. f_equal. lia.
Qed.

Section WithParser.
Variable P : RRule.parser.

Lemma SetRecurrence_lock t rfc : lock (snd (SetRecurrence P t rfc)) = lock t.
Proof. unfold SetRecurrence. by destruct (P rfc). Qed.

Lemma active_pc u c : d_pc u = c → c ≠ PcDone → active u.
Proof. unfold active. congruence. Qed.

Ltac st_simpl :=
  cbn [store sched clock sweep units retiring adding sink events
       set_store set_sched set_clock set_sweep set_units set_retiring
       set_adding set_sink log set_pc d_task d_now d_pc fst snd] in *.

Ltac step_inv H :=
  unfold step, sweep_visit, Send in H; step_cases H; simplify_eq; norm_pairs;
  repeat match goal with
         | H : unit_at _ _ _ = Some _ |- _ => apply unit_at_Some in H as [? ?]
         | H : negb _ = false |- _ => apply (proj1 (negb_false_iff _)) in H
         | H : negb _ = true |- _ => apply (proj1 (negb_true_iff _)) in H
         end;
  unfold notify_task in *; repeat case_match; st_simpl.

Lemma step_lock_inv l s s' : lock_inv s → step P l s = Some s' → lock_inv s'.
Proof.
  unfold lock_inv. intros Hinv Hstep.
  destruct l; step_inv Hstep; try done.
  all: try (apply lock_ok_alloc; [done | apply slot_ok_NewTask]).
  all: try (eapply lock_ok_same_lock; [done..|]; apply SetRecurrence_lock).
  all: try (eapply lock_ok_same_lock; [done..|]; apply Unlock_Lock; [by eapply lo_slot|done]).
  all: try (by apply lock_ok_spawn).
  all: try (apply lock_ok_exit; [done..|eapply active_pc; done|done]).
  all: try (apply lock_ok_move; [|done|eapply active_pc; done]).
  all: try done.
  all: try (eapply lock_ok_same_lock; [done..|]; done).
Qed.

(** The events invariant when only the log grows by an event that is not
    a removal and belongs to no goroutine. *)
Lemma events_ok_log s s' e :
  events_ok s → units s' = units s → retiring s' = retiring s →
  events s' = e :: events s → (∀ k p, e ≠ EvRemoved k p) → (∀ i, ¬ of_unit i e) →
  events_ok s'.
Proof.
  intros [E1 E2 E3 E4] Hu Hr He Hne Hnu. constructor; rewrite ?Hu, ?Hr, ?He.
  - intros i u Hi. apply sublist_cons. eauto.
  - intros p Hp. destruct (E2 p Hp) as [i Hi]. exists i. by apply sublist_cons.
  - intros k p Hin. apply elem_of_cons in Hin as [Heq|Hin]; [by destruct (Hne k p)|].
    destruct (E3 k p Hin) as [i Hi]. exists i. by apply sublist_cons.
  - intros i e' Hin Hof. apply elem_of_cons in Hin as [->|Hin]; [by destruct (Hnu i)|]. eauto.
Qed.

Lemma events_ok_same s s' :
  events_ok s → units s' = units s → retiring s' = retiring s →
  events s' = events s → events_ok s'.
Proof. intros [E1 E2 E3 E4] Hu Hr He. constructor; rewrite ?Hu, ?Hr, ?He; done. Qed.

Lemma events_ok_spawn s s' u :
  events_ok s → units s' = units s ++ [u] → d_pc u = PcEnqueue →
  retiring s' = retiring s → events s' = events s → events_ok s'.
Proof.
  intros [E1 E2 E3 E4] Hu Hpc Hr He. constructor; rewrite ?Hu, ?Hr, ?He; try done.
  - intros i u' Hi. apply lookup_app_Some in Hi as [Hi|[_ Hi]]; [eauto|].
    apply list_lookup_singleton_Some in Hi as [_ <-]. rewrite Hpc. apply sublist_nil_l.
  - intros i e Hin Hof. destruct (E4 i e Hin Hof) as (u' & Hu' & Hne).
    exists u'. split; [|done]. by apply lookup_app_l_Some.
Qed.

(** A goroutine moves on without logging; it has nothing to show for
    where it arrives. *)
Lemma events_ok_move s s' i u c :
  events_ok s → units s !! i = Some u →
  units s' = <[i := mkDispatch (d_task u) (d_now u) c]> (units s) →
  chain c i (d_task u) = [] → c ≠ PcEnqueue →
  retiring s' = retiring s → events s' = events s → events_ok s'.
Proof.
  intros [E1 E2 E3 E4] Hi Hu Hc Hne Hr He.
  constructor; rewrite ?Hu, ?Hr, ?He; try done.
  - intros j uj Hj. apply insert_lookup_cases in Hj as [(-> & -> & _)|[_ Hj]]; [|eauto].
    simpl. rewrite Hc. apply sublist_nil_l.
  - intros j e Hin Hof. destruct (E4 j e Hin Hof) as (uj & Huj & Hnej).
    destruct (decide (j = i)) as [->|Hji].
    + eexists. split; [apply list_lookup_insert_eq; by eapply lookup_lt_Some|done].
    + exists uj. split; [by rewrite list_lookup_insert_ne|done].
Qed.

(** A goroutine moves on and logs the event that extends its chain. *)
Lemma events_ok_move_log s s' i u c e :
  events_ok s → units s !! i = Some u →
  units s' = <[i := mkDispatch (d_task u) (d_now u) c]> (units s) →
  chain c i (d_task u) = e :: chain (d_pc u) i (d_task u) →
  of_unit i e → (∀ k p, e ≠ EvRemoved k p) → c ≠ PcEnqueue →
  retiring s' = retiring s → events s' = e :: events s → events_ok s'.
Proof.
  intros [E1 E2 E3 E4] Hi Hu Hc Hof Hnr Hne Hr He.
  constructor; rewrite ?Hu, ?Hr, ?He.
  - intros j uj Hj. apply insert_lookup_cases in Hj as [(-> & -> & _)|[_ Hj]].
    + simpl. rewrite Hc. apply sublist_skip. eauto.
    + apply sublist_cons. eauto.
  - intros p Hp. destruct (E2 p Hp) as [j Hj]. exists j. by apply sublist_cons.
  - intros k p Hin. apply elem_of_cons in Hin as [Heq|Hin]; [by destruct (Hnr k p)|].
    destruct (E3 k p Hin) as [j Hj]. exists j. by apply sublist_cons.
  - intros j e' Hin Hof'.
    destruct (decide (j = i)) as [->|Hji].
    + eexists. split; [apply list_lookup_insert_eq; by eapply lookup_lt_Some|done].
    + rewrite list_lookup_insert_ne by done.
      apply elem_of_cons in Hin as [->|Hin]; [|eauto].
      destruct e; simpl in Hof, Hof'; congruence || done.
Qed.

(** The relay: the sender goes on to its exit, the retirement loop holds
    the task. *)
Lemma events_ok_relay s s' i u :
  events_ok s → units s !! i = Some u → d_pc u = PcSend →
  units s' = <[i := mkDispatch (d_task u) (d_now u) PcExit]> (units s) →
  retiring s' = Some (d_task u) →
  events s' = EvRelayed i (d_task u) :: events s → events_ok s'.
Proof.
  intros [E1 E2 E3 E4] Hi Hpc Hu Hr He.
  constructor; rewrite ?Hu, ?Hr, ?He.
  - intros j uj Hj. apply insert_lookup_cases in Hj as [(-> & -> & _)|[_ Hj]].
    + apply sublist_nil_l.
    + apply sublist_cons. eauto.
  - intros p [= <-]. exists i. apply sublist_skip.
    specialize (E1 i u Hi). by rewrite Hpc in E1.
  - intros k p Hin. apply elem_of_cons in Hin as [Heq|Hin]; [done|].
    destruct (E3 k p Hin) as [j Hj]. exists j. by apply sublist_cons.
  - intros j e' Hin Hof'.
    destruct (decide (j = i)) as [->|Hji].
    + eexists. split; [apply list_lookup_insert_eq; by eapply lookup_lt_Some|done].
    + rewrite list_lookup_insert_ne by done.
      apply elem_of_cons in Hin as [->|Hin]; [|eauto]. simpl in Hof'. congruence.
Qed.

(** The removal: the retirement loop deletes for the task it holds. *)
Lemma events_ok_remove s s' k p :
  events_ok s → retiring s = Some p → units s' = units s →
  retiring s' = None → events s' = EvRemoved k p :: events s → events_ok s'.
Proof.
  intros [E1 E2 E3 E4] Hp Hu Hr He.
  constructor; rewrite ?Hu, ?Hr, ?He.
  - intros j uj Hj. apply sublist_cons. eauto.
  - done.
  - intros k' p' Hin. apply elem_of_cons in Hin as [[= -> ->]|Hin].
    + destruct (E2 p Hp) as [j Hj]. exists j. by apply sublist_skip.
    + destruct (E3 k' p' Hin) as [j Hj]. exists j. by apply sublist_cons.
  - intros j e' Hin Hof'. apply elem_of_cons in Hin as [->|Hin]; [done|eauto].
Qed.

Lemma step_events_ok l s s' : events_ok s → step P l s = Some s' → events_ok s'.
Proof.
  intros Hinv Hstep.
  destruct l; step_inv Hstep; try done.
  all: try (eapply events_ok_same; [done|reflexivity..]).
  all: try (eapply events_ok_log; [done|reflexivity..|done|by intros ? ?]).
  all: try (eapply events_ok_spawn; [done|reflexivity..]).
  all: try (eapply events_ok_move_log;
            [done|done|reflexivity
            |match goal with H : d_pc _ = _ |- _ => rewrite H end; reflexivity
            |done..]).
  all: try (eapply events_ok_move; [done|done|reflexivity|done..]).
  all: try (eapply events_ok_relay; [done|done|done|reflexivity..]).
  all: try (eapply events_ok_remove; [done|done|reflexivity..]).
  all: try (match goal with
            | |- events_ok (log ?x ?e) =>
                apply (events_ok_log x _ e); [|reflexivity..|done|by intros ? ?]
            end;
            eapply events_ok_move; [exact Hinv|eassumption|reflexivity|done..]).
Qed.

(** *** Task objects stay where they are and keep their ids *)

Lemma Lock_Id t : Id (snd (Lock t)) = Id t.
Proof. unfold Lock. by destruct (Chan.try_recv (lock t)). Qed.

Lemma Lock_Schedule t : Schedule (snd (Lock t)) = Schedule t.
Proof. unfold Lock. by destruct (Chan.try_recv (lock t)). Qed.

Lemma SetRecurrence_Id t rfc : Id (snd (SetRecurrence P t rfc)) = Id t.
Proof. unfold SetRecurrence. by destruct (P rfc). Qed.

Lemma insert_Id (h : list Task) q tq tq' p t :
  h !! q = Some tq → Id tq' = Id tq → h !! p = Some t →
  ∃ t', <[q := tq']> h !! p = Some t' ∧ Id t' = Id t.
Proof.
  intros Hq Hid Hp. destruct (decide (q = p)) as [->|Hne].
  - exists tq'. split; [apply list_lookup_insert_eq; by eapply lookup_lt_Some|].
    congruence.
  - exists t. split; [|done]. by rewrite list_lookup_insert_ne.
Qed.

Lemma step_store_Id l s s' p t :
  step P l s = Some s' → store s !! p = Some t →
  ∃ t', store s' !! p = Some t' ∧ Id t' = Id t.
Proof.
  intros Hstep Hp.
  destruct l; step_inv Hstep; eauto.
  all: try (exists t; split; [by apply lookup_app_l_Some|done]).
  all: try (eapply insert_Id; [done| |done]).
  all: try apply SetRecurrence_Id.
  all: try (simpl; apply Lock_Id).
  all: try done.
Qed.

Lemma refs_ok_frame s s' :
  refs_ok s →
  (∀ p t, store s !! p = Some t → ∃ t', store s' !! p = Some t' ∧ Id t' = Id t) →
  tasks (sched s') = tasks (sched s) → retiring s' = retiring s →
  (∀ k p, EvRemoved k p ∈ events s' → EvRemoved k p ∈ events s) →
  refs_ok s'.
Proof.
  intros [R1 R2 R3] Hst Hta Hr He. constructor; rewrite ?Hta, ?Hr.
  - intros k p Hk. destruct (R1 k p Hk) as (t & Ht & Hid).
    destruct (Hst p t Ht) as (t' & Ht' & Hid'). exists t'. split; [done|]. by rewrite Hid'.
  - intros p Hp. destruct (R2 p Hp) as [t Ht].
    destruct (Hst p t Ht) as (t' & Ht' & _). eauto.
  - intros k p Hin. destruct (R3 k p (He k p Hin)) as (t & Ht & Hid).
    destruct (Hst p t Ht) as (t' & Ht' & Hid'). exists t'. split; [done|]. by rewrite Hid'.
Qed.

Lemma step_refs_ok l s s' :
  lock_inv s → refs_ok s → step P l s = Some s' → refs_ok s'.
Proof.
  intros Hlock Hinv Hstep.
  pose proof (λ p t, step_store_Id l s s' p t Hstep) as Hid.
  destruct l;
    try (solve [eapply refs_ok_frame; [done|done|..]; step_inv Hstep; try done;
                intros ? ? Hin; apply elem_of_cons in Hin as [?|?]; done]).
  - (* the insertion of Add *)
    step_inv Hstep. destruct Hinv as [R1 R2 R3]. constructor; st_simpl; try done.
    intros k p. unfold add_insert. simpl.
    destruct (decide (Id t = k)) as [<-|Hne].
    + rewrite lookup_insert_eq. intros [= <-]. eauto.
    + rewrite lookup_insert_ne by done. eauto.
  - (* the relay *)
    step_inv Hstep. destruct Hinv as [R1 R2 R3]. constructor; st_simpl; try done.
    + intros p [= <-]. by eapply lo_valid.
    + intros k p Hin. apply elem_of_cons in Hin as [?|?]; [done|eauto].
  - (* the removal *)
    step_inv Hstep. destruct Hinv as [R1 R2 R3]. constructor; st_simpl; try done.
    + intros k p Hk. simpl in Hk. apply lookup_delete_Some in Hk as [_ Hk]. eauto.
    + intros k p Hin. apply elem_of_cons in Hin as [[= -> ->]|?]; eauto.
Qed.

(** *** Settled tasks stay complete *)

Lemma IsComplete_Schedule t t' c :
  Schedule t' = Schedule t → IsComplete P t' c = IsComplete P t c.
Proof. unfold IsComplete. by intros ->. Qed.

Lemma CanSchedule_Schedule t t' now :
  Schedule t' = Schedule t → CanSchedule P t' now = CanSchedule P t now.
Proof. unfold CanSchedule. by intros ->. Qed.

Lemma until_complete_Recurrence t t' c :
  Recurrence (Schedule t') = Recurrence (Schedule t) →
  until_complete P t c → until_complete P t' c.
Proof. unfold until_complete. by intros ->. Qed.

Lemma until_complete_later t c c' :
  until_complete P t c → (c ≤ c')%Z → until_complete P t c'.
Proof.
  intros (Hne & rule & Hrule & Hafter) Hle. split; [done|].
  exists rule. split; [done|]. unfold After in *.
  apply Z.ltb_lt in Hafter. apply Z.ltb_lt. lia.
Qed.

Lemma until_complete_IsComplete t c :
  until_complete P t c → IsComplete P t c = true.
Proof.
  intros (Hne & rule & Hrule & Hafter). unfold IsComplete. simpl.
  destruct (decide (Recurrence (Schedule t) = "")); [done|].
  rewrite Hrule, Hafter. by destruct (_ && _).
Qed.

(** A task that is complete and can still be scheduled by a sweep is
    complete because its series has ended (the sweep read its [now]
    earlier). *)
Lemma complete_but_schedulable t c now :
  IsComplete P t c = true → CanSchedule P t now = true → until_complete P t c.
Proof.
  unfold IsComplete, CanSchedule, until_complete. simpl.
  destruct (decide (Recurrence (Schedule t) = "")) as [|Hne].
  { intros H1 H2. apply bool_decide_eq_true in H1, H2. done. }
  destruct (P (Recurrence (Schedule t))) as [rule|]; [|done].
  destruct (_ && _); [done|].
  destruct (After c (RRule.GetUntil rule)) eqn:Hafter; [|done].
  intros _ _. split; [done|]. by exists rule.
Qed.

Lemma settled_log e evs p :
  (∀ i q, e ≠ EvComplete i q) → (∀ q, e ≠ EvSetRecurrence q) →
  settled (e :: evs) p = settled evs p.
Proof. intros H1 H2. destruct e; simpl; try done; [by destruct (H2 p0)|by destruct (H1 i p0)]. Qed.

Lemma settled_ok_frame s s' :
  settled_ok P s →
  (∀ p t, store s !! p = Some t →
          ∃ t', store s' !! p = Some t' ∧ Schedule t' = Schedule t) →
  (∀ p, settled (events s') p = settled (events s) p) →
  clock s' = clock s →
  (∀ i u', units s' !! i = Some u' → d_pc u' = PcEnqueue ∨ d_pc u' = PcMark →
           ∃ u, units s !! i = Some u ∧ d_task u = d_task u'
                ∧ (d_pc u = PcEnqueue ∨ d_pc u = PcMark)) →
  settled_ok P s'.
Proof.
  intros [S0 S1 S2] Hst Hev Hc Hu. constructor.
  - intros p Hp. rewrite Hev in Hp. destruct (S0 p Hp) as [t Ht].
    destruct (Hst p t Ht) as (t' & Ht' & _). eauto.
  - intros p t' Hp Ht'. rewrite Hev in Hp. destruct (S0 p Hp) as [t Ht].
    destruct (Hst p t Ht) as (t'' & Ht'' & Hs). simplify_eq.
    rewrite Hc. rewrite (IsComplete_Schedule t t' _ Hs). eauto.
  - intros p t' i u' Hp Ht' Hi Hd Hpc. rewrite Hev in Hp.
    destruct (S0 p Hp) as [t Ht].
    destruct (Hst p t Ht) as (t'' & Ht'' & Hs). simplify_eq.
    destruct (Hu i u' Hi Hpc) as (u & Hiu & Hdu & Hpcu).
    rewrite Hc. eapply until_complete_Recurrence; [by rewrite Hs|]. eauto.
Qed.

Lemma same_Schedule_refl (h : list Task) p t :
  h !! p = Some t → ∃ t', h !! p = Some t' ∧ Schedule t' = Schedule t.
Proof. eauto. Qed.

Lemma same_Schedule_app (h : list Task) t0 p t :
  h !! p = Some t → ∃ t', (h ++ [t0]) !! p = Some t' ∧ Schedule t' = Schedule t.
Proof. intros Hp. exists t. split; [by apply lookup_app_l_Some|done]. Qed.

Lemma same_Schedule_insert (h : list Task) q tq tq' p t :
  h !! q = Some tq → Schedule tq' = Schedule tq → h !! p = Some t →
  ∃ t', <[q := tq']> h !! p = Some t' ∧ Schedule t' = Schedule t.
Proof.
  intros Hq Hs Hp. destruct (decide (q = p)) as [->|Hne].
  - exists tq'. split; [apply list_lookup_insert_eq; by eapply lookup_lt_Some|].
    congruence.
  - exists t. split; [|done]. by rewrite list_lookup_insert_ne.
Qed.

Lemma pending_same (us : list dispatch) i u' :
  us !! i = Some u' → d_pc u' = PcEnqueue ∨ d_pc u' = PcMark →
  ∃ u, us !! i = Some u ∧ d_task u = d_task u'
       ∧ (d_pc u = PcEnqueue ∨ d_pc u = PcMark).
Proof. eauto. Qed.

Lemma pending_move (us : list dispatch) j u c i u' :
  us !! j = Some u →
  (c = PcEnqueue ∨ c = PcMark → d_pc u = PcEnqueue ∨ d_pc u = PcMark) →
  <[j := mkDispatch (d_task u) (d_now u) c]> us !! i = Some u' →
  d_pc u' = PcEnqueue ∨ d_pc u' = PcMark →
  ∃ u0, us !! i = Some u0 ∧ d_task u0 = d_task u'
        ∧ (d_pc u0 = PcEnqueue ∨ d_pc u0 = PcMark).
Proof.
  intros Hj Hc Hi Hpc.
  apply insert_lookup_cases in Hi as [(-> & -> & _)|[_ Hi]]; [|eauto].
  exists u. simpl in *. eauto.
Qed.

Lemma settled_ok_tick s d :
  settled_ok P s → (0 ≤ d)%Z → settled_ok P (set_clock s (clock s + d)%Z).
Proof.
  intros [S0 S1 S2] Hd. constructor; st_simpl.
  - done.
  - intros p t Hp Ht. eapply complete_later; [eauto|lia].
  - intros p t i u Hp Ht Hi Hdu Hpc. eapply until_complete_later; [eauto|lia].
Qed.

Lemma settled_ok_replace s s' p t t' :
  settled_ok P s → store s !! p = Some t →
  store s' = <[p := t']> (store s) → events s' = EvSetRecurrence p :: events s →
  clock s' = clock s → units s' = units s → settled_ok P s'.
Proof.
  intros [S0 S1 S2] Hp Hst Hev Hc Hu.
  assert (Hset : ∀ q, settled (events s') q = true → q ≠ p ∧ settled (events s) q = true).
  { intros q. rewrite Hev. simpl. by case_decide. }
  constructor; rewrite ?Hst, ?Hc, ?Hu.
  - intros q Hq. apply Hset in Hq as [Hne Hq]. rewrite list_lookup_insert_ne by done. eauto.
  - intros q tq Hq. apply Hset in Hq as [Hne Hq]. rewrite list_lookup_insert_ne by done. eauto.
  - intros q tq i u Hq. apply Hset in Hq as [Hne Hq]. rewrite list_lookup_insert_ne by done. eauto.
Qed.

Lemma settled_ok_spawn s s' p t now :
  settled_ok P s → store s !! p = Some t →
  CanSchedule P (snd (Lock t)) now = true →
  store s' = <[p := snd (Lock t)]> (store s) → events s' = events s →
  clock s' = clock s → units s' = units s ++ [mkDispatch p now PcEnqueue] →
  settled_ok P s'.
Proof.
  intros Hinv Hp Hcan Hst Hev Hc Hu.
  assert (Hsame : ∀ q tq, store s !! q = Some tq →
            ∃ t', store s' !! q = Some t' ∧ Schedule t' = Schedule tq).
  { intros q tq Hq. rewrite Hst. eapply same_Schedule_insert; [done| |done].
    apply Lock_Schedule. }
  destruct Hinv as [S0 S1 S2]. constructor; rewrite ?Hev, ?Hc.
  - intros q Hq. destruct (S0 q Hq) as [tq Htq].
    destruct (Hsame q tq Htq) as (t' & Ht' & _). eauto.
  - intros q t' Hq Ht'. destruct (S0 q Hq) as [tq Htq].
    destruct (Hsame q tq Htq) as (t'' & Ht'' & Hs). simplify_eq.
    rewrite (IsComplete_Schedule tq t' _ Hs). eauto.
  - intros q t' i u Hq Ht' Hi Hd Hpc. destruct (S0 q Hq) as [tq Htq].
    destruct (Hsame q tq Htq) as (t'' & Ht'' & Hs). simplify_eq.
    eapply until_complete_Recurrence; [by rewrite Hs|].
    rewrite Hu in Hi. apply lookup_app_Some in Hi as [Hi|[_ Hi]]; [eauto|].
    apply list_lookup_singleton_Some in Hi as [_ <-]. simpl in *. simplify_eq.
    eapply complete_but_schedulable; [eauto|].
    by rewrite <- (CanSchedule_Schedule t (snd (Lock t))) by apply Lock_Schedule.
Qed.

Lemma settled_ok_mark s s' i u t :
  settled_ok P s → units s !! i = Some u → d_pc u = PcMark →
  store s !! d_task u = Some t →
  store s' = <[d_task u := MarkScheduled t (d_now u)]> (store s) →
  events s' = EvMarked i (d_task u) :: events s → clock s' = clock s →
  units s' = <[i := mkDispatch (d_task u) (d_now u) PcIsComplete]> (units s) →
  settled_ok P s'.
Proof.
  intros [S0 S1 S2] Hi Hpc Ht Hst Hev Hc Hu.
  constructor; rewrite ?Hev, ?Hc, ?Hst; simpl.
  - intros q Hq. apply lookup_lt_is_Some. rewrite length_insert.
    apply lookup_lt_is_Some. eauto.
  - intros q tq Hq Htq.
    apply insert_lookup_cases in Htq as [(-> & -> & _)|[_ Htq]]; [|eauto].
    apply until_complete_IsComplete.
    eapply (until_complete_Recurrence t); [done|]. eauto.
  - intros q tq j uj Hq Htq Hj Hd Hpcj. rewrite Hu in Hj.
    apply insert_lookup_cases in Hj as [(-> & -> & _)|[_ Hj]];
      [simpl in Hpcj; by destruct Hpcj|].
    apply insert_lookup_cases in Htq as [(-> & -> & _)|[_ Htq]]; [|eauto].
    eapply (until_complete_Recurrence t); [done|]. eauto.
Qed.

Lemma settled_ok_complete s s' i u t :
  settled_ok P s → lock_inv s → units s !! i = Some u → d_pc u = PcIsComplete →
  store s !! d_task u = Some t → IsComplete P t (clock s) = true →
  store s' = store s → events s' = EvComplete i (d_task u) :: events s →
  clock s' = clock s →
  units s' = <[i := mkDispatch (d_task u) (d_now u) PcSend]> (units s) →
  settled_ok P s'.
Proof.
  intros [S0 S1 S2] Hlock Hi Hpc Ht Hcomp Hst Hev Hc Hu.
  assert (Hset : ∀ q, settled (events s') q = true →
                      q = d_task u ∨ settled (events s) q = true).
  { intros q. rewrite Hev. simpl. case_decide; eauto. }
  constructor; rewrite ?Hst, ?Hc.
  - intros q Hq. apply Hset in Hq as [->|Hq]; eauto.
  - intros q tq Hq Htq. apply Hset in Hq as [->|Hq]; [|eauto]. by simplify_eq.
  - intros q tq j uj Hq Htq Hj Hd Hpcj. rewrite Hu in Hj.
    apply insert_lookup_cases in Hj as [(-> & -> & _)|[Hne Hj]];
      [simpl in Hpcj; by destruct Hpcj|].
    apply Hset in Hq as [->|Hq]; [|eauto].
    destruct Hne. eapply (lo_excl _ _ Hlock j i uj u); try done.
    + unfold active. destruct Hpcj; congruence.
    + unfold active. congruence.
Qed.

Lemma SetRecurrence_failed t rfc e :
  fst (SetRecurrence P t rfc) = Some e → snd (SetRecurrence P t rfc) = t.
Proof. unfold SetRecurrence. by destruct (P rfc). Qed.

Lemma step_settled_ok l s s' :
  lock_inv s → settled_ok P s → step P l s = Some s' → settled_ok P s'.
Proof.
  intros Hlock Hinv Hstep.
  destruct l; step_inv Hstep; try done.
  all: try (by apply settled_ok_tick).
  all: try (eapply settled_ok_replace; [done|done|reflexivity..]).
  all: try (eapply settled_ok_spawn; [done|done|done|reflexivity..]).
  all: try (eapply settled_ok_mark; [done|done|done|done|reflexivity..]).
  all: try (eapply settled_ok_complete; [done|done|done|done|done|done|reflexivity..]).
  all: try (eapply settled_ok_frame;
            [done
            |st_simpl; intros ? ?;
             first [apply same_Schedule_refl
                   |apply same_Schedule_app
                   |eapply same_Schedule_insert; [done|]]
            |intros ?; st_simpl; first [reflexivity | by apply settled_log]
            |reflexivity
            |st_simpl; intros ? ?;
             first [apply pending_same | eapply pending_move; [done|]]]).
  all: try (simpl; by rewrite ?Lock_Schedule).
  all: try (by erewrite SetRecurrence_failed).
  all: try (intros [?|?]; done).
  all: try (intros _; by left).
Qed.

(** *** Reachable states *)

Lemma inv_initial q f c0 : inv P (initial q f c0).
Proof.
  constructor.
  - constructor; simpl; intros *; rewrite ?lookup_nil; done.
  - constructor; simpl; intros *; rewrite ?lookup_nil, ?elem_of_nil; done.
  - constructor; simpl; intros *; rewrite ?lookup_empty, ?elem_of_nil; done.
  - constructor; simpl; intros *; rewrite ?lookup_nil; done.
Qed.

Lemma inv_step l s s' : inv P s → step P l s = Some s' → inv P s'.
Proof.
  intros [H1 H2 H3 H4] Hstep. constructor.
  - by eapply step_lock_inv.
  - by eapply step_events_ok.
  - by eapply step_refs_ok.
  - by eapply step_settled_ok.
Qed.

Lemma inv_run ls : ∀ s s', inv P s → run P ls s = Some s' → inv P s'.
Proof.
  induction ls as [|l ls IH]; intros s s' Hinv Hrun; simpl in Hrun.
  - by simplify_eq.
  - destruct (step P l s) as [s1|] eqn:Hstep; [|done].
    eapply IH; [|done]. by eapply inv_step.
Qed.

Lemma run_app ls ls' s :
  run P (ls ++ ls') s = match run P ls s with
                        | Some s1 => run P ls' s1
                        | None => None
                        end.
Proof.
  revert s. induction ls as [|l ls IH]; intros s; simpl; [done|].
  by destruct (step P l s).
Qed.

Lemma reachable_inv s : reachable P s → inv P s.
Proof. intros (q & f & c0 & ls & Hrun). eapply inv_run; [apply inv_initial|done]. Qed.

Lemma reachable_run ls s s' : reachable P s → run P ls s = Some s' → reachable P s'.
Proof.
  intros (q & f & c0 & ls0 & Hrun0) Hrun. exists q, f, c0, (ls0 ++ ls).
  by rewrite run_app, Hrun0.
Qed.

Lemma reachable_step l s s' : reachable P s → step P l s = Some s' → reachable P s'.
Proof. intros Hs Hstep. apply (reachable_run [l] s); [done|]. simpl. by rewrite Hstep. Qed.

(** *** Removal from the ledger *)

(** Only the retirement loop takes a key out of the ledger, and it logs
    the removal. *)
Lemma step_ledger_shrinks l s s' k q :
  step P l s = Some s' →
  tasks (sched s) !! k = Some q → tasks (sched s') !! k = None →
  l = LRetireDelete
  ∧ ∃ p t, retiring s = Some p ∧ store s !! p = Some t ∧ Id t = k
           ∧ events s' = EvRemoved k p :: events s.
Proof.
  intros Hstep Hk Hk'.
  destruct l; step_inv Hstep; try congruence.
  - unfold add_insert in Hk'. simpl in Hk'.
    apply lookup_insert_None in Hk' as [? _]. congruence.
  - split; [done|]. simpl in Hk'.
    apply lookup_delete_None in Hk' as [<-|?]; [|congruence]. eauto 10.
Qed.

(** A goroutine blocked on the relay can hand its task over, and the
    retirement loop can then delete the id of the task, once the
    dispatch loop is out of its range over the ledger. *)
Lemma observed_complete_can_retire s i u t :
  units s !! i = Some u → d_pc u = PcSend → store s !! d_task u = Some t →
  retiring s = None → read_locked s = false →
  ∃ s', run P [LRelay i; LRetireDelete] s = Some s'
        ∧ tasks (sched s') !! Id t = None
        ∧ events s' = EvRemoved (Id t) (d_task u)
                      :: EvRelayed i (d_task u) :: events s.
Proof.
  intros Hi Hpc Ht Hret Hrl.
  unfold run, step, unit_at. rewrite Hi, Hret. rewrite decide_True by done.
  st_simpl. rewrite Ht.
  replace (read_locked _) with false by (by unfold read_locked in *).
  eexists. split; [reflexivity|]. st_simpl. split; [|done].
  simpl. apply lookup_delete_eq.
Qed.

(** C4, as the code has it.  When a step of a reachable state takes a
    key out of the ledger, the step is the deletion of the retirement
    loop, made for a task with that id which it received on the relay;
    some dispatch goroutine had, in this order, enqueued that task with
    success, marked it scheduled, seen [IsComplete] true and passed it to
    the relay.  And unless a [SetRecurrence] has replaced the rule of
    that task since a goroutine last saw it complete, [CanSchedule] is
    false for it from the current clock reading on. *)
Theorem removal_follows_observed_completion (s s' : State) (l : label)
    (k : string) (q : addr) :
  reachable P s → step P l s = Some s' →
  tasks (sched s) !! k = Some q → tasks (sched s') !! k = None →
  ∃ p i t,
    l = LRetireDelete
    ∧ events s' = EvRemoved k p :: events s
    ∧ [EvRelayed i p; EvComplete i p; EvMarked i p; EvEnqueued i p]
      `sublist_of` events s
    ∧ store s' !! p = Some t ∧ Id t = k
    ∧ (settled (events s') p = true →
       ∀ now, (clock s' ≤ now)%Z → CanSchedule P t now = false).
Proof.
  intros Hreach Hstep Hk Hk'.
  destruct (step_ledger_shrinks l s s' k q Hstep Hk Hk')
    as (-> & p & t & Hret & Ht & Hid & Hev).
  pose proof (reachable_inv s Hreach) as Hinv.
  pose proof (inv_step _ _ _ Hinv Hstep) as Hinv'.
  destruct (eo_retiring _ (inv_events _ _ Hinv) p Hret) as [i Hchain].
  destruct (step_store_Id _ _ _ p t Hstep Ht) as (t' & Ht' & Hid').
  exists p, i, t'. do 3 (split; [done|]).
  split; [done|]. split; [congruence|].
  intros Hset now Hnow.
  eapply complete_not_schedulable; [|done].
  by eapply (so_complete _ _ (inv_settled _ _ Hinv')).
Qed.

(** *** A failed enqueue *)














End WithParser.

Lemma removal_follows_observed_completion_witness :
  let s := default Fixture.fresh
             (run Fixture.parse Fixture.one_shot_run Fixture.fresh) in
  let s' := default s (step Fixture.parse LRetireDelete s) in
  reachable Fixture.parse s
  ∧ step Fixture.parse LRetireDelete s = Some s'
  ∧ tasks (sched s) !! "t1" = Some 0
  ∧ tasks (sched s') !! "t1" = None
  ∧ ∃ p i t,
      events s' = EvRemoved "t1" p :: events s
      ∧ [EvRelayed i p; EvComplete i p; EvMarked i p; EvEnqueued i p]
        `sublist_of` events s
      ∧ store s' !! p = Some t ∧ Id t = "t1".
Proof.
  intros s s'.
  assert (Hrun : run Fixture.parse Fixture.one_shot_run Fixture.fresh = Some s)
    by (vm_compute; reflexivity).
  assert (Hreach : reachable Fixture.parse s).
  { exists (QueueHandle "jobs"), None, Fixture.start, Fixture.one_shot_run.
    exact Hrun. }
  assert (Hstep : step Fixture.parse LRetireDelete s = Some s')
    by (vm_compute; reflexivity).
  assert (Hin : tasks (sched s) !! "t1" = Some 0) by (vm_compute; reflexivity).
  assert (Hout : tasks (sched s') !! "t1" = None) by (vm_compute; reflexivity).
  do 4 (split; [assumption|]).
  destruct (removal_follows_observed_completion Fixture.parse s s'
              LRetireDelete "t1" 0 Hreach Hstep Hin Hout)
    as (p & i & t & _ & Hev & Hchain & Ht & Hid & _).
  exists p, i, t. auto.
Defined.

(** C4, as stated.  A task that a later sweep could schedule again is
    removed all the same: a one-shot task is dispatched and seen
    complete, the caller then gives it a daily rule, and the retirement
    loop deletes it although [CanSchedule] is true for it a day later. *)
Lemma removed_while_schedulable :
  ¬ (∀ s s' k q t now,
       reachable Fixture.parse s →
       step Fixture.parse LRetireDelete s = Some s' →
       tasks (sched s) !! k = Some q → tasks (sched s') !! k = None →
       store s' !! q = Some t → (clock s' ≤ now)%Z →
       CanSchedule Fixture.parse t now = false).
Proof.
  intros Hclaim.
  set (s := default Fixture.fresh
              (run Fixture.parse Fixture.rescheduled_run Fixture.fresh)).
  set (s' := default s (step Fixture.parse LRetireDelete s)).
  set (t := {| Id := "t1";
               Schedule := {| Recurrence := "FREQ=DAILY;DTSTART=20210101T000000Z";
                              Count := 1; UpdatedAt := Fixture.start |};
               lock := Some {| Chan.cap := 1; Chan.len := 1 |} |}).
  assert (Hreach : reachable Fixture.parse s).
  { exists (QueueHandle "jobs"), None, Fixture.start, Fixture.rescheduled_run.
    vm_compute. reflexivity. }
  assert (Hstep : step Fixture.parse LRetireDelete s = Some s')
    by (vm_compute; reflexivity).
  assert (Hin : tasks (sched s) !! "t1" = Some 0) by (vm_compute; reflexivity).
  assert (Hout : tasks (sched s') !! "t1" = None) by (vm_compute; reflexivity).
  assert (Ht : store s' !! 0 = Some t) by (vm_compute; reflexivity).
  assert (Hnow : (clock s' ≤ Fixture.start + Fixture.day)%Z)
    by (vm_compute; congruence).
  specialize (Hclaim s s' "t1" 0 t (Fixture.start + Fixture.day)%Z
                Hreach Hstep Hin Hout Ht Hnow).
  vm_compute in Hclaim. discriminate.
Qed.

(** The deletion is by id.  When two callers of [Add] have passed the
    presence test for one id before either inserted, the entry deleted
    for the first task can be the second, which no sweep has visited. *)
Lemma retirement_deletes_by_id :
  let s := default Fixture.fresh
             (run Fixture.parse Fixture.racing_run Fixture.fresh) in
  let s' := default s (step Fixture.parse LRetireDelete s) in
  reachable Fixture.parse s
  ∧ step Fixture.parse LRetireDelete s = Some s'
  ∧ tasks (sched s) !! "x" = Some 1
  ∧ tasks (sched s') !! "x" = None
  ∧ head (events s') = Some (EvRemoved "x" 0)
  ∧ store s' !! 1 = Some (NewTask "x").
Proof.
  intros s s'. split.
  { exists (QueueHandle "jobs"), None, Fixture.start, Fixture.racing_run.
    vm_compute. reflexivity. }
  repeat split; vm_compute; reflexivity.
Qed.




End LoopFacts.
